(** * map-reduce: the Go entry point, the wire protocol and the coordinator core

    - [Main] embeds [golang/src/main.go]: [run], [runWorker],
      [runCoordinator], [loadPlugin], [lookupPluginFunc] and [main], over a
      small monad that records the calls into the [mr] package, [time.Sleep]
      and [log.Fatal], and that distinguishes a return, a panic, a process
      exit and a call that is still running.
    - [Proto] embeds the protocol buffer file as a descriptor: its
      messages, its service, and the shape of every operation once message
      names are resolved.
    - [MR] is the coordinator core (task registry, scheduler, phase
      controller, result assembler) as the specification describes it. *)

From stdpp Require Import base strings pretty list gmap.
From Stdlib Require Import ZArith.

#[local] Open Scope Z_scope.
Set Warnings "-register-all".

Module Main.

(** ** Go values the entry point handles *)

(** A non-nil [error]: [fmt.Errorf] without [%w] gives an [errorString],
    with [%w] a [wrapError] whose [Unwrap] is the wrapped error. A Go value
    of type [error] is an [option error], [None] being [nil]. *)
Inductive error : Type :=
| errorString (msg : string)
| wrapError (msg : string) (err : error).

(** The method [Error()]. *)
Definition Error (e : error) : string :=
  match e with
  | errorString msg => msg
  | wrapError msg _ => msg
  end.

(** Modelled from the spec: [mr.KeyValue] of the package [mapreduce/internal],
    which is not among the sources; the (key, value) pair of the
    specification's IntermediateRecord. *)
Record KeyValue : Type := { Key : string; Value : string }.

(** [func(string, string) []mr.KeyValue] and [func(string, []string) string]. *)
Definition MapF : Type := string → string → list KeyValue.
Definition ReduceF : Type := string → list string → string.

(** A [plugin.Symbol] is an [interface{}]: a value with its dynamic type.
    The two function types [loadPlugin] asserts are told apart from every
    other dynamic type, which is kept by its name. *)
Inductive Symbol : Type :=
| MapFunc (f : MapF)
| ReduceFunc (f : ReduceF)
| OtherSymbol (gotype : string).

(** The name of a symbol's dynamic type, as a panic message prints it. *)
Definition dynamic_type (s : Symbol) : string :=
  match s with
  | MapFunc _ => "func(string, string) []mr.KeyValue"
  | ReduceFunc _ => "func(string, []string) string"
  | OtherSymbol gotype => gotype
  end.

(** An opened [*plugin.Plugin]: its method [Lookup]. *)
Record Plugin : Type := { Lookup : string → Symbol + error }.

(** ** Outcomes, events and the world *)

(** How a call ends: it returns, it panics, it ends the process
    ([os.Exit], reached through [log.Fatal]), or it is still running when
    the observation stops (blocked in [mr.Worker], or the polling loop has
    used the iterations it was given). *)
Inductive Outcome (A : Type) : Type :=
| Returns (a : A)
| Panics (reason : string)
| Exits (code : Z)
| Running.
Arguments Returns {A} a.
Arguments Panics {A} reason.
Arguments Exits {A} code.
Arguments Running {A}.

(** The calls into the [mr] package, [time.Sleep] and [log.Fatal], in the
    order they are made. The calls into the [plugin] package
    ([plugin.Open], [Lookup]) are not recorded: what they return is read
    from the world; [fmt.Errorf] only builds a value. *)
Inductive Event : Type :=
| MakeCoordinator_call (files : list string) (nReduce : Z)
| Done_call (reported : bool)
| Sleep_call (d : Z)
| Worker_call (mapf : option MapF) (reducef : option ReduceF)
| Fatal_call (msg : string).

(** What the program reads from outside: the command line, the plugin
    files, what the [k]-th call of [m.Done()] reports, and how
    [mr.Worker] ends. The last two belong to the [mr] package, which is not
    among the sources, and are taken as given: [mr.Worker] may end in any
    way, while [mr.MakeCoordinator], [m.Done] and [time.Sleep] are taken to
    return. *)
Record World : Type := {
  os_Args : list string;
  plugin_Open : string → Plugin + error;
  Done_reports : nat → bool;
  Worker_ends : option MapF → option ReduceF → Outcome unit;
}.

(** The state threaded through a run: the events so far and the number of
    [Done()] calls made. *)
Record St : Type := { trace : list Event; polls : nat }.

Definition Go (A : Type) : Type := St → St * Outcome A.

#[global] Instance Go_ret : MRet Go := λ A a st, (st, Returns a).

#[global] Instance Go_bind : MBind Go := λ A B f m st,
  match m st with
  | (st', Returns a) => f a st'
  | (st', Panics reason) => (st', Panics reason)
  | (st', Exits code) => (st', Exits code)
  | (st', Running) => (st', Running)
  end.

Definition panic {A : Type} (reason : string) : Go A := λ st, (st, Panics reason).

Definition emit (e : Event) : Go unit :=
  λ st, ({| trace := trace st ++ [e]; polls := polls st |}, Returns tt).

Definition st0 : St := {| trace := []; polls := 0 |}.

(** A run from the start of the process: its events and its outcome. *)
Definition exec {A : Type} (m : Go A) : list Event * Outcome A :=
  let '(st, o) := m st0 in (trace st, o).

(** ** The constants of [main.go] *)

Definition coordinatorArg : string := "mrcoordinator".
Definition workerArg : string := "mrworker".
Definition minArgs : Z := 3.
(** [time.Second], in nanoseconds. *)
Definition sleepDuration : Z := 1000000000.

Definition usage : string :=
  "Usage: go run main.go [mrcoordinator|mrworker] [plugin_file] [input_files...]".

(** ** Go expressions *)

(** [len(s)]. *)
Definition len {A : Type} (s : list A) : Z := Z.of_nat (length s).

(** The index expression [s[i]]: a run-time panic out of range. *)
Definition index {A : Type} (s : list A) (i : nat) : Go A :=
  match s !! i with
  | Some x => mret x
  | None => panic ("runtime error: index out of range [" +:+ pretty i
                   +:+ "] with length " +:+ pretty (length s))
  end.

(** The slice expression [s[lo:]]: a run-time panic when [lo > len(s)]. *)
Definition slice_from {A : Type} (s : list A) (lo : nat) : Go (list A) :=
  if decide (lo ≤ length s)%nat then mret (drop lo s)
  else panic ("runtime error: slice bounds out of range [" +:+ pretty lo
              +:+ ":" +:+ pretty (length s) +:+ "]").

(** The type assertions [x.(func(string, string) []mr.KeyValue)] and
    [x.(func(string, []string) string)], in their one-result form: a
    run-time panic when the dynamic type differs. The message names the
    static type of the operand, [plugin.Symbol], then the dynamic type and
    the asserted one. *)
Definition assert_MapF (x : Symbol) : Go MapF :=
  match x with
  | MapFunc f => mret f
  | _ => panic ("interface conversion: plugin.Symbol is " +:+ dynamic_type x
                +:+ ", not func(string, string) []mr.KeyValue")
  end.

Definition assert_ReduceF (x : Symbol) : Go ReduceF :=
  match x with
  | ReduceFunc f => mret f
  | _ => panic ("interface conversion: plugin.Symbol is " +:+ dynamic_type x
                +:+ ", not func(string, []string) string")
  end.

(** ** The calls that are recorded *)

Definition Sleep (d : Z) : Go unit := emit (Sleep_call d).

(** [mr.MakeCoordinator(files, nReduce)]; the coordinator it returns is
    known here by what it was constructed with. *)
Definition MakeCoordinator (files : list string) (nReduce : Z) : Go (list string * Z) :=
  emit (MakeCoordinator_call files nReduce);; mret (files, nReduce).

Section Program.
Variable w : World.

(** [m.Done()]: the next report of the world. *)
Definition Done (m : list string * Z) : Go bool := λ st,
  let reported := Done_reports w (polls st) in
  ({| trace := trace st ++ [Done_call reported]; polls := S (polls st) |},
   Returns reported).

(** [mr.Worker(mapf, reducef)]; a Go function value may be [nil]. *)
Definition Worker (mapf : option MapF) (reducef : option ReduceF) : Go unit := λ st,
  ({| trace := trace st ++ [Worker_call mapf reducef]; polls := polls st |},
   Worker_ends w mapf reducef).

(** [log.Fatal(err)]: prints the error and calls [os.Exit(1)]. *)
Definition log_Fatal {A : Type} (err : error) : Go A := λ st,
  ({| trace := trace st ++ [Fatal_call (Error err)]; polls := polls st |}, Exits 1).

(** ** The functions of [main.go] *)

Definition lookupPluginFunc (p : Plugin) (funcName : string) : Symbol + error :=
  match Lookup p funcName with
  | inr err =>
      inr (wrapError ("cannot find " +:+ funcName +:+ " in plugin: " +:+ Error err) err)
  | inl symbol => inl symbol
  end.

Definition loadPlugin (filename : string)
  : Go (option MapF * option ReduceF * option error) :=
  match plugin_Open w filename with
  | inr err =>
      mret (None, None,
            Some (wrapError ("cannot load plugin " +:+ filename +:+ ": " +:+ Error err) err))
  | inl p =>
      match lookupPluginFunc p "Map" with
      | inr err => mret (None, None, Some err)
      | inl mapf =>
          match lookupPluginFunc p "Reduce" with
          | inr err => mret (None, None, Some err)
          | inl reducef =>
              mf ← assert_MapF mapf;
              rf ← assert_ReduceF reducef;
              mret (Some mf, Some rf, None)
          end
      end
  end.

Definition runWorker : Go (option error) :=
  filename ← index (os_Args w) 2;
  '(mapf, reducef, err) ← loadPlugin filename;
  match err with
  | Some e => mret (Some e)
  | None => Worker mapf reducef;; mret None
  end.

(** The loop [for !m.Done() { time.Sleep(sleepDuration) }], observed for
    at most [fuel] evaluations of its condition. *)
Fixpoint poll (fuel : nat) (m : list string * Z) : Go unit :=
  match fuel with
  | O => λ st, (st, Running)
  | S fuel' =>
      done ← Done m;
      if done : bool then mret tt
      else Sleep sleepDuration;; poll fuel' m
  end.

Definition runCoordinator (fuel : nat) : Go (option error) :=
  files ← slice_from (os_Args w) 2;
  m ← MakeCoordinator files 10;
  poll fuel m;;
  Sleep sleepDuration;;
  mret None.

Definition run (fuel : nat) : Go (option error) :=
  if decide (len (os_Args w) < minArgs) then mret (Some (errorString usage))
  else
    mode ← index (os_Args w) 1;
    if decide (mode = coordinatorArg) then runCoordinator fuel
    else if decide (mode = workerArg) then runWorker
    else mret (Some (errorString
           ("Invalid argument: " +:+ mode +:+ ". Use 'mrcoordinator' or 'mrworker'"))).

Definition main (fuel : nat) : Go unit :=
  err ← run fuel;
  match err with
  | Some e => log_Fatal e
  | None => mret tt
  end.

End Program.

(** ** Observations on a run *)

Definition events {A : Type} (m : Go A) : list Event := (exec m).1.
Definition outcome {A : Type} (m : Go A) : Outcome A := (exec m).2.

(** [n] rounds of the polling loop in which [Done()] reported false. *)
Fixpoint waiting (n : nat) : list Event :=
  match n with
  | O => []
  | S n' => Done_call false :: Sleep_call sleepDuration :: waiting n'
  end.

Definition starts_coordinator (tr : list Event) : Prop :=
  ∃ files nReduce, MakeCoordinator_call files nReduce ∈ tr.

(** Fewer than three command-line arguments. *)
Definition too_few (w : World) : Prop := len (os_Args w) < minArgs.

(** The first argument is neither ["mrcoordinator"] nor ["mrworker"]. *)
Definition invalid_mode (w : World) : Prop :=
  ∃ mode, os_Args w !! 1%nat = Some mode ∧ mode ≠ coordinatorArg ∧ mode ≠ workerArg.

Definition invalid_mode_message (mode : string) : string :=
  "Invalid argument: " +:+ mode +:+ ". Use 'mrcoordinator' or 'mrworker'".

(** A plugin exports [name] when [Lookup] finds it. *)
Definition exports (p : Plugin) (name : string) : Prop :=
  ∃ symbol, Lookup p name = inl symbol.

(** The plugin file cannot be loaded: it does not open, or it opens and
    lacks the symbol [Map] or the symbol [Reduce]. *)
Definition unloadable (w : World) (filename : string) : Prop :=
  match plugin_Open w filename with
  | inr _ => True
  | inl p => ¬ exports p "Map" ∨ ¬ exports p "Reduce"
  end.

(** ** Worlds to run the program in *)

(** The texts of the errors of the [plugin] package, here and in [world],
    stand for whatever that package reports. *)
Definition not_found (name : string) : error :=
  errorString ("plugin: symbol " +:+ name +:+ " not found").

(** A word-count plugin: [Map] and [Reduce] with the expected types. *)
Definition wordcount_Map : MapF := λ _ contents, [ {| Key := contents; Value := "1" |} ].
Definition wordcount_Reduce : ReduceF := λ key _, key.

Definition wordcount_plugin : Plugin :=
  {| Lookup := λ name,
       if decide (name = "Map") then inl (MapFunc wordcount_Map)
       else if decide (name = "Reduce") then inl (ReduceFunc wordcount_Reduce)
       else inr (not_found name) |}.

(** A plugin whose [Map] is declared [func Map(string) string]. *)
Definition mistyped_plugin : Plugin :=
  {| Lookup := λ name,
       if decide (name = "Map") then inl (OtherSymbol "func(string) string")
       else if decide (name = "Reduce") then inl (ReduceFunc wordcount_Reduce)
       else inr (not_found name) |}.

(** A plugin that exports [Map] only. *)
Definition map_only_plugin : Plugin :=
  {| Lookup := λ name,
       if decide (name = "Map") then inl (MapFunc wordcount_Map)
       else inr (not_found name) |}.

(** A file system with three plugin files; a job done at the third poll;
    a worker that serves until the process is killed. *)
Definition world (args : list string) : World :=
  {| os_Args := args;
     plugin_Open := λ filename,
       if decide (filename = "wordcount.so") then inl wordcount_plugin
       else if decide (filename = "mistyped.so") then inl mistyped_plugin
       else if decide (filename = "map_only.so") then inl map_only_plugin
       else inr (errorString ("plugin.Open(" +:+ filename +:+ "): realpath failed"));
     Done_reports := λ k, bool_decide (2 ≤ k)%nat;
     Worker_ends := λ _ _, Running |}.

(** The same, with workers that never answer: the job is never done. *)
Definition stalled_world (args : list string) : World :=
  {| os_Args := args;
     plugin_Open := plugin_Open (world args);
     Done_reports := λ _, false;
     Worker_ends := λ _ _, Running |}.

(** ** Further observations on a run *)

(** [errors.Unwrap]: the error a [%w] wrapped, [nil] otherwise. *)
Definition Unwrap (e : error) : option error :=
  match e with
  | errorString _ => None
  | wrapError _ err => Some err
  end.

(** What the calls of [Done()] reported, in order. *)
Definition reports (tr : list Event) : list bool :=
  omap (λ e, match e with Done_call reported => Some reported | _ => None end) tr.

(** The time passed in [time.Sleep], in nanoseconds. *)
Definition slept (tr : list Event) : Z :=
  foldr (λ e t, match e with Sleep_call d => d + t | _ => t end) 0 tr.

(** The calls only [runCoordinator] makes. *)
Definition coordinator_event (e : Event) : bool :=
  match e with
  | MakeCoordinator_call _ _ | Done_call _ | Sleep_call _ => true
  | Worker_call _ _ | Fatal_call _ => false
  end.

(** The world of [world] with no plugin file at all and a worker that
    returns at once. *)
Definition bare_world (args : list string) : World :=
  {| os_Args := args;
     plugin_Open := λ filename,
       inr (errorString ("plugin.Open(" +:+ filename +:+ "): realpath failed"));
     Done_reports := Done_reports (world args);
     Worker_ends := λ _ _, Returns tt |}.

End Main.

(** * The wire protocol: the protocol buffer file, as a descriptor *)

Module Proto.

(** The type of a field: the scalar [string], or a message by its name. *)
Inductive FieldType : Type :=
| string_
| message_ (name : string).

(** One field of a message: [repeated] or not, its type, its name and its
    number. *)
Record Field : Type := {
  repeated : bool;
  ftype : FieldType;
  fname : string;
  fnumber : Z;
}.

Record Message : Type := { mname : string; fields : list Field }.

(** One [rpc] of a service; neither side is a [stream] unless it says so. *)
Record Rpc : Type := {
  rname : string;
  request : string;
  request_stream : bool;
  response : string;
  response_stream : bool;
}.

Record Service : Type := { sname : string; rpcs : list Rpc }.

Definition MapRequest : Message :=
  {| mname := "MapRequest";
     fields := [ {| repeated := false; ftype := string_; fname := "file_path"; fnumber := 1 |};
                 {| repeated := false; ftype := string_; fname := "map_function"; fnumber := 2 |} ] |}.

Definition MapResponse : Message :=
  {| mname := "MapResponse";
     fields := [ {| repeated := true; ftype := message_ "KeyValuePair";
                    fname := "intermediate_results"; fnumber := 1 |} ] |}.

Definition ReduceRequest : Message :=
  {| mname := "ReduceRequest";
     fields := [ {| repeated := true; ftype := message_ "KeyValuePair";
                    fname := "intermediate_results"; fnumber := 1 |};
                 {| repeated := false; ftype := string_; fname := "reduce_function"; fnumber := 2 |} ] |}.

Definition ReduceResponse : Message :=
  {| mname := "ReduceResponse";
     fields := [ {| repeated := false; ftype := string_; fname := "final_result"; fnumber := 1 |} ] |}.

Definition KeyValuePair : Message :=
  {| mname := "KeyValuePair";
     fields := [ {| repeated := false; ftype := string_; fname := "key"; fnumber := 1 |};
                 {| repeated := false; ftype := string_; fname := "value"; fnumber := 2 |} ] |}.

Definition PingRequest : Message := {| mname := "PingRequest"; fields := [] |}.

Definition PingResponse : Message :=
  {| mname := "PingResponse";
     fields := [ {| repeated := false; ftype := string_; fname := "status"; fnumber := 1 |} ] |}.

(** The messages of the file, in the order it declares them. *)
Definition messages : list Message :=
  [ MapRequest; MapResponse; ReduceRequest; ReduceResponse; KeyValuePair;
    PingRequest; PingResponse ].

Definition MapReduceService : Service :=
  {| sname := "MapReduceService";
     rpcs := [ {| rname := "Map"; request := "MapRequest"; request_stream := false;
                  response := "MapResponse"; response_stream := false |};
               {| rname := "Reduce"; request := "ReduceRequest"; request_stream := false;
                  response := "ReduceResponse"; response_stream := false |};
               {| rname := "Ping"; request := "PingRequest"; request_stream := false;
                  response := "PingResponse"; response_stream := false |} ] |}.

(** The shape of a payload once message names are resolved: a string, a
    list, or named fields in declaration order. *)
Inductive Shape : Type :=
| Str
| ListOf (elem : Shape)
| Fields (fs : list (string * Shape)).

Definition find_message (msgs : list Message) (name : string) : option Message :=
  List.find (λ m, bool_decide (mname m = name)) msgs.

(** The shape of the message [name]; [depth] bounds the nesting of
    message-typed fields (a protocol buffer file may be recursive). *)
Fixpoint shape_of (msgs : list Message) (depth : nat) (name : string) : option Shape :=
  match depth with
  | O => None
  | S depth' =>
      m ← find_message msgs name;
      fs ← mapM (λ f,
              s ← match ftype f with
                  | string_ => Some Str
                  | message_ n => shape_of msgs depth' n
                  end;
              Some (fname f, if repeated f then ListOf s else s))
            (fields m);
      Some (Fields fs)
  end.

(** One operation as a caller sees it: its name, what it takes and what it
    returns; [None] for a streaming side or an undeclared message. *)
Definition operation (msgs : list Message) (r : Rpc) : option (string * Shape * Shape) :=
  if request_stream r || response_stream r then None
  else
    req ← shape_of msgs (length msgs) (request r);
    resp ← shape_of msgs (length msgs) (response r);
    Some (rname r, req, resp).

Definition operations (msgs : list Message) (s : Service) : option (list (string * Shape * Shape)) :=
  mapM (operation msgs) (rpcs s).

(** A (key, value) pair of strings, and a list of them. *)
Definition pair_shape : Shape := Fields [("key", Str); ("value", Str)].
Definition pairs_shape : Shape := ListOf pair_shape.

End Proto.

(** * The coordinator core *)

Module MR.

#[local] Open Scope nat_scope.

(** ** Data model *)

(** Modelled from the spec: the kinds of task, the status of a task, the
    health of an endpoint, the phase of the JobState and the error of the
    Task Registry; the [mr] package that implements the coordinator is not
    among the sources. *)
Inductive Kind : Type := MapTask | ReduceTask.
Inductive Status : Type := Pending | Dispatched | Completed.
Inductive Health : Type := Alive | Unresponsive.
Inductive Phase : Type := Mapping | Reducing | Done.
Inductive Error : Type := InvalidTransition.

#[global] Instance Kind_eq_dec : EqDecision Kind.
Proof. solve_decision. Defined.
#[global] Instance Status_eq_dec : EqDecision Status.
Proof. solve_decision. Defined.
#[global] Instance Health_eq_dec : EqDecision Health.
Proof. solve_decision. Defined.
#[global] Instance Phase_eq_dec : EqDecision Phase.
Proof. solve_decision. Defined.

(** Modelled from the spec: the IntermediateRecord, a (key, value) pair
    produced by a MapTask; the [mr] package that declares it is not among
    the sources. *)
Definition IntermediateRecord : Type := string * string.

(** Modelled from the spec: a partition once grouped by key, every key with
    the sequence of all its values. *)
Definition Grouped : Type := gmap string (list string).

(** Modelled from the spec: a task's input payload, a file reference for a
    MapTask and the grouped records of its partition for a ReduceTask. *)
Inductive Payload : Type :=
| FileRef (path : string)
| PartitionInput (groups : gmap string (list string)).

(** Modelled from the spec: a task's result payload. *)
Inductive Result : Type :=
| MapOutput (records : list IntermediateRecord)
| ReduceOutput (value : string).

(** Modelled from the spec: the Task of the data model. The worker and the
    deadline are set only while Dispatched, the result only when Completed. *)
Record Task : Type := mkTask {
  ident : nat;
  kind : Kind;
  input : Payload;
  status : Status;
  worker : option string;
  deadline : option nat;
  result : option Result;
}.

(** Modelled from the spec: the WorkerEndpoint of the data model. *)
Record WorkerEndpoint : Type := {
  address : string;
  health : Health;
  lastProbe : nat;
}.

(** Modelled from the spec: the Job, immutable for its lifetime. *)
Record Job : Type := {
  splits : list string;
  mapFunction : string;
  reduceFunction : string;
  R : nat;
}.

(** Modelled from the spec: the deadline duration T of the Scheduler, in
    seconds (the recommended value). *)
Definition T : nat := 10.

(** ** Task Registry *)

(** Modelled from the spec: the Task Registry, the state of every Map and
    Reduce task of the job; a task's identifier is its position among the
    tasks of its kind. *)
Record Registry : Type := { mapTasks : list Task; reduceTasks : list Task }.

Definition TaskId : Type := Kind * nat.

Definition tasksOf (k : Kind) (reg : Registry) : list Task :=
  match k with
  | MapTask => mapTasks reg
  | ReduceTask => reduceTasks reg
  end.

Definition getTask (reg : Registry) (id : TaskId) : option Task :=
  tasksOf id.1 reg !! id.2.

Definition setTask (reg : Registry) (id : TaskId) (t : Task) : Registry :=
  match id.1 with
  | MapTask => {| mapTasks := <[id.2 := t]> (mapTasks reg); reduceTasks := reduceTasks reg |}
  | ReduceTask => {| mapTasks := mapTasks reg; reduceTasks := <[id.2 := t]> (reduceTasks reg) |}
  end.

Definition isPending (t : Task) : bool := bool_decide (status t = Pending).
Definition isCompleted (t : Task) : bool := bool_decide (status t = Completed).

(** Modelled from the spec: [allPending(kind)], the tasks of the kind with
    status Pending, in task-identifier order. *)
Definition allPending (k : Kind) (reg : Registry) : list Task :=
  List.filter isPending (tasksOf k reg).

Definition allCompleted (ts : list Task) : bool := forallb isCompleted ts.

Definition dispatchedTo (t : Task) (w : string) (d : nat) : Task :=
  {| ident := ident t; kind := kind t; input := input t; status := Dispatched;
     worker := Some w; deadline := Some d; result := result t |}.

Definition completedWith (t : Task) (res : Result) : Task :=
  {| ident := ident t; kind := kind t; input := input t; status := Completed;
     worker := None; deadline := None; result := Some res |}.

Definition backToPending (t : Task) : Task :=
  {| ident := ident t; kind := kind t; input := input t; status := Pending;
     worker := None; deadline := None; result := result t |}.

(** Modelled from the spec: [markDispatched(taskId, worker, deadline)] fails
    with InvalidTransition if the task is not Pending. *)
Definition markDispatched (id : TaskId) (w : string) (d : nat) (reg : Registry)
  : Registry + Error :=
  match getTask reg id with
  | Some t =>
      match status t with
      | Pending => inl (setTask reg id (dispatchedTo t w d))
      | _ => inr InvalidTransition
      end
  | None => inr InvalidTransition
  end.

(** Modelled from the spec: [markCompleted(taskId, result)] is a no-op (not
    an error) if the task is already Completed. A task's status only ever
    moves Pending to Dispatched to Completed, or Dispatched back to Pending,
    so a result is recorded for a Dispatched task only; the flag says
    whether it was recorded. *)
Definition markCompleted (id : TaskId) (res : Result) (reg : Registry) : Registry * bool :=
  match getTask reg id with
  | Some t =>
      match status t with
      | Dispatched => (setTask reg id (completedWith t res), true)
      | _ => (reg, false)
      end
  | None => (reg, false)
  end.

(** Modelled from the spec: [markTimedOut(taskId)] transitions Dispatched to
    Pending only if the task is still Dispatched for the deadline that
    expired; [expired] is that deadline. *)
Definition markTimedOut (id : TaskId) (expired : nat) (reg : Registry) : Registry :=
  match getTask reg id with
  | Some t =>
      if bool_decide (status t = Dispatched ∧ deadline t = Some expired)
      then setTask reg id (backToPending t)
      else reg
  | None => reg
  end.

(** ** Liveness Monitor *)

(** Modelled from the spec: one probe of the Liveness Monitor; success marks
    the endpoint Alive and refreshes its last-probe time, failure or timeout
    marks it Unresponsive; an endpoint is created when first observed by a
    successful probe and never removed. *)
Definition probed (addr : string) (ok : bool) (now : nat) (eps : list WorkerEndpoint)
  : list WorkerEndpoint :=
  if bool_decide (addr ∈ address <$> eps) then
    (λ ep, if bool_decide (address ep = addr)
           then if ok then {| address := addr; health := Alive; lastProbe := now |}
                else {| address := addr; health := Unresponsive; lastProbe := lastProbe ep |}
           else ep) <$> eps
  else if ok then eps ++ [ {| address := addr; health := Alive; lastProbe := now |} ]
  else eps.

(** ** Result Assembler *)

(** Modelled from the spec: the Result Assembler's state: the buffer of
    completed Map outputs, the partitions once computed, and the final
    per-partition result table. *)
Record Assembler : Type := {
  buffer : list IntermediateRecord;
  cached : option (list (gmap string (list string)));
  finals : gmap nat string;
}.

(** Modelled from the spec: [onMapCompleted(taskId, records)] appends the
    records to the buffer; [onReduceCompleted(partitionId, value)] records
    the final result for that partition. *)
Definition onMapCompleted (records : list IntermediateRecord) (a : Assembler) : Assembler :=
  {| buffer := buffer a ++ records; cached := cached a; finals := finals a |}.

Definition onReduceCompleted (p : nat) (value : string) (a : Assembler) : Assembler :=
  {| buffer := buffer a; cached := cached a; finals := <[p := value]> (finals a) |}.

(** Modelled from the spec: a group grouped by key, all values for a key
    in one sequence, here in buffer order. *)
Definition groupByKey (records : list IntermediateRecord) : gmap string (list string) :=
  foldr (λ kv m, <[kv.1 := kv.2 :: default [] (m !! kv.1)]> m) ∅ records.

(** All values recorded for [key], in order. *)
Definition valuesOf (key : string) (records : list IntermediateRecord) : list string :=
  (List.filter (λ kv, bool_decide (kv.1 = key)) records).*2.

Section Core.
(** The hash function of the partitioning, which the specification leaves
    open. *)
Variable hash : string → nat.

Definition partitionOf (r : nat) (key : string) : nat := hash key `mod` r.

Definition partitionRecords (r p : nat) (records : list IntermediateRecord)
  : list IntermediateRecord :=
  List.filter (λ kv, bool_decide (partitionOf r kv.1 = p)) records.

(** Modelled from the spec: [partitionForReduce(R)] consumes the buffer
    exactly once (a second call is a no-op returning the cached partitions)
    and returns R groups, group [p] containing every record whose key hashes
    to [p], each group grouped by key. *)
Definition partitionForReduce (r : nat) (a : Assembler)
  : Assembler * list (gmap string (list string)) :=
  match cached a with
  | Some parts => (a, parts)
  | None =>
      let parts := (λ p, groupByKey (partitionRecords r p (buffer a))) <$> seq 0 r in
      ({| buffer := []; cached := Some parts; finals := finals a |}, parts)
  end.

(** ** Scheduler and Phase Controller *)

(** Modelled from the spec: the coordinator's aggregate: JobState, Task
    Registry, the known endpoints and the Result Assembler. *)
Record Coordinator : Type := {
  job : Job;
  phase : Phase;
  registry : Registry;
  endpoints : list WorkerEndpoint;
  assembler : Assembler;
}.

(** An endpoint holds a task while a task is Dispatched to it. *)
Definition holds (addr : string) (t : Task) : bool :=
  bool_decide (status t = Dispatched ∧ worker t = Some addr).

Definition busy (reg : Registry) (addr : string) : bool :=
  existsb (holds addr) (mapTasks reg ++ reduceTasks reg).

(** The endpoints the Scheduler may dispatch to: Alive, and not holding a
    Dispatched task. *)
Definition freeAlive (reg : Registry) (eps : list WorkerEndpoint) : list string :=
  address <$> List.filter (λ ep, bool_decide (health ep = Alive) && negb (busy reg (address ep))) eps.

(** Modelled from the spec: [dispatchNext(phaseKind)] selects the
    lowest-identifier Pending task of the kind and an Alive endpoint that
    holds no Dispatched task, and starts a deadline of duration T; it is a
    no-op when no task is Pending or no such endpoint is free. Which free
    endpoint is selected is left open: [choice] picks among them. *)
Definition dispatchNext (k : Kind) (now choice : nat) (s : Coordinator)
  : Coordinator + Error :=
  match allPending k (registry s) with
  | [] => inl s
  | t :: _ =>
      let free := freeAlive (registry s) (endpoints s) in
      match free !! (choice `mod` length free) with
      | None => inl s
      | Some w =>
          match markDispatched (k, ident t) w (now + T) (registry s) with
          | inl reg => inl {| job := job s; phase := phase s; registry := reg;
                              endpoints := endpoints s; assembler := assembler s |}
          | inr e => inr e
          end
      end
  end.

(** The ReduceTasks materialized at the Map to Reduce transition:
    identifiers 0..R-1, each Pending with its partition as input. *)
Definition materialize (parts : list (gmap string (list string))) : list Task :=
  imap (λ p g, mkTask p ReduceTask (PartitionInput g) Pending None None None) parts.

(** Modelled from the spec: a successful Map response. The result is
    recorded unless the task is no longer Dispatched, handed to the Result
    Assembler, and when it completes the last MapTask the transition from
    Mapping to Reducing fires. *)
Definition onMapResponse (i : nat) (records : list IntermediateRecord) (s : Coordinator)
  : Coordinator :=
  let '(reg, recorded) := markCompleted (MapTask, i) (MapOutput records) (registry s) in
  if recorded then
    let a := onMapCompleted records (assembler s) in
    if bool_decide (phase s = Mapping) && allCompleted (mapTasks reg) then
      let '(a', parts) := partitionForReduce (R (job s)) a in
      {| job := job s; phase := Reducing;
         registry := {| mapTasks := mapTasks reg; reduceTasks := materialize parts |};
         endpoints := endpoints s; assembler := a' |}
    else
      {| job := job s; phase := phase s; registry := reg;
         endpoints := endpoints s; assembler := a |}
  else s.

(** Modelled from the spec: a successful Reduce response; when it completes
    the last ReduceTask the transition from Reducing to Done fires. *)
Definition onReduceResponse (p : nat) (value : string) (s : Coordinator) : Coordinator :=
  let '(reg, recorded) := markCompleted (ReduceTask, p) (ReduceOutput value) (registry s) in
  if recorded then
    let a := onReduceCompleted p value (assembler s) in
    {| job := job s;
       phase := if bool_decide (phase s = Reducing) && allCompleted (reduceTasks reg)
                then Done else phase s;
       registry := reg; endpoints := endpoints s; assembler := a |}
  else s.

(** Modelled from the spec: what happens to the coordinator: a scheduling
    pass, a worker's response, a deadline that elapses (or a transport
    failure), a probe. *)
Inductive Event : Type :=
| Pass (now choice : nat)
| MapResponse (i : nat) (records : list IntermediateRecord)
| ReduceResponse (p : nat) (value : string)
| DeadlineElapsed (id : TaskId) (expired : nat)
| Probe (addr : string) (ok : bool) (now : nat).

(** Modelled from the spec: the Phase Controller drives the Scheduler: in
    Mapping a pass is [dispatchNext(Map)], in Reducing [dispatchNext(Reduce)],
    and Done is terminal. *)
Definition handle (s : Coordinator) (e : Event) : Coordinator + Error :=
  match e with
  | Pass now choice =>
      match phase s with
      | Mapping => dispatchNext MapTask now choice s
      | Reducing => dispatchNext ReduceTask now choice s
      | Done => inl s
      end
  | MapResponse i records => inl (onMapResponse i records s)
  | ReduceResponse p value => inl (onReduceResponse p value s)
  | DeadlineElapsed id expired =>
      inl {| job := job s; phase := phase s;
             registry := markTimedOut id expired (registry s);
             endpoints := endpoints s; assembler := assembler s |}
  | Probe addr ok now =>
      inl {| job := job s; phase := phase s; registry := registry s;
             endpoints := probed addr ok now (endpoints s); assembler := assembler s |}
  end.

Fixpoint handleAll (s : Coordinator) (es : list Event) : Coordinator + Error :=
  match es with
  | [] => inl s
  | e :: es' =>
      match handle s e with
      | inl s' => handleAll s' es'
      | inr err => inr err
      end
  end.

(** Modelled from the spec: the coordinator at job start: phase Mapping, one
    Pending MapTask per input split, no ReduceTask yet, nothing buffered. *)
Definition start (j : Job) (eps : list WorkerEndpoint) : Coordinator :=
  {| job := j; phase := Mapping;
     registry := {| mapTasks := imap (λ i f, mkTask i MapTask (FileRef f) Pending None None None)
                                     (splits j);
                    reduceTasks := [] |};
     endpoints := eps;
     assembler := {| buffer := []; cached := None; finals := ∅ |} |}.

(** Modelled from the spec: [finalResults()] returns the mapping from
    partition to value only once Done. *)
Definition finalResults (s : Coordinator) : option (gmap nat string) :=
  match phase s with
  | Done => Some (finals (assembler s))
  | _ => None
  end.

(** ** Invariants of the coordinator's state *)

(** Every task sits at the position its identifier names, among the tasks
    of its kind. *)
Definition identified (reg : Registry) : Prop :=
  ∀ k i t, tasksOf k reg !! i = Some t → ident t = i ∧ kind t = k.

(** The phase against the tasks: no ReduceTask exists while Mapping, every
    MapTask is Completed once Mapping is left, every ReduceTask is Completed
    once Done. *)
Definition phaseInvariant (s : Coordinator) : Prop :=
  (phase s = Mapping → reduceTasks (registry s) = [])
  ∧ (phase s ≠ Mapping → allCompleted (mapTasks (registry s)) = true)
  ∧ (phase s = Done → allCompleted (reduceTasks (registry s)) = true).

(** The order of the phases: Mapping, Reducing, Done. *)
Definition phaseRank (p : Phase) : nat :=
  match p with
  | Mapping => 0
  | Reducing => 1
  | Done => 2
  end.

(** The two transitions of the phase state machine. *)
Definition advances (p p' : Phase) : Prop :=
  (p = Mapping ∧ p' = Reducing) ∨ (p = Reducing ∧ p' = Done).

(** The states the coordinator reaches from the start of a job. *)
Definition reachable (j : Job) (eps : list WorkerEndpoint) (s : Coordinator) : Prop :=
  ∃ es, handleAll (start j eps) es = inl s.

End Core.

(** ** A job to run: the scenario of the specification *)

(** A hash that places the keys ["a"] and ["c"] in partition 0 and ["b"] in
    partition 1 of 2: one more than the code of the first character. *)
Definition firstCharHash (key : string) : nat :=
  match key with
  | EmptyString => 0
  | String c _ => S (Ascii.nat_of_ascii c)
  end.

Definition wordCount : Job :=
  {| splits := ["a b"; "b c"]; mapFunction := "wordcount_map";
     reduceFunction := "wordcount_reduce"; R := 2 |}.

Definition twoWorkers : list WorkerEndpoint :=
  [ {| address := "worker-1"; health := Alive; lastProbe := 0 |};
    {| address := "worker-2"; health := Alive; lastProbe := 0 |} ].

(** Both MapTasks are dispatched; the first completes; the second worker
    never answers and the deadline (0 + T) elapses. *)
Definition untilTimeout : list Event :=
  [ Pass 0 0; Pass 0 0;
    MapResponse 0 [("a", "1"); ("b", "1")];
    DeadlineElapsed (MapTask, 1) 10 ].

(** The task is dispatched again and completes; the late response of the
    first dispatch follows; then the Reduce phase runs. *)
Definition untilDone : list Event :=
  [ Pass 11 0;
    MapResponse 1 [("b", "1"); ("c", "1")];
    MapResponse 1 [("b", "1"); ("c", "1")];
    Pass 20 0; Pass 20 0;
    ReduceResponse 1 "b=2"; ReduceResponse 0 "a=1,c=1";
    ReduceResponse 0 "late" ].

(** The coordinator of the scenario after the events [es]. *)
Definition stateAfter (es : list Event) : Coordinator :=
  match handleAll firstCharHash (start wordCount twoWorkers) es with
  | inl s => s
  | inr _ => start wordCount twoWorkers
  end.

(** The Result Assembler when the Map phase of the scenario closes. *)
Definition wordBuffer : Assembler :=
  {| buffer := [("a", "1"); ("b", "1"); ("b", "1"); ("c", "1")];
     cached := None; finals := ∅ |}.

End MR.

(** * The entry point: facts about [main.go] *)

Section Polling.
Import Main.

(** Unfolding the monad at a state. *)
Lemma bind_Returns {A B : Type} (m : Go A) (f : A → Go B) st st' a :
  m st = (st', Returns a) → (m ≫= f) st = f a st'.
Proof. intros H. unfold mbind, Go_bind. by rewrite H. Qed.

Lemma bind_Running {A B : Type} (m : Go A) (f : A → Go B) st st' :
  m st = (st', Running) → (m ≫= f) st = (st', Running).
Proof. intros H. unfold mbind, Go_bind. by rewrite H. Qed.

Lemma bind_Panics {A B : Type} (m : Go A) (f : A → Go B) st st' reason :
  m st = (st', Panics reason) → (m ≫= f) st = (st', Panics reason).
Proof. intros H. unfold mbind, Go_bind. by rewrite H. Qed.

(** The polling loop, observed for [fuel] rounds from any state: either
    some poll [n < fuel] is the first to report true and the loop is left
    after [n] sleeps, or every poll so far reported false and the loop is
    still running. *)
Lemma poll_cases w m fuel st :
  (∃ n, (n < fuel)%nat
        ∧ Done_reports w (polls st + n) = true
        ∧ (∀ k, (k < n)%nat → Done_reports w (polls st + k) = false)
        ∧ poll w fuel m st =
            ({| trace := trace st ++ waiting n ++ [Done_call true];
                polls := polls st + S n |}, Returns tt))
  ∨ ((∀ k, (k < fuel)%nat → Done_reports w (polls st + k) = false)
     ∧ poll w fuel m st =
         ({| trace := trace st ++ waiting fuel; polls := polls st + fuel |}, Running)).
Proof.
  revert st. induction fuel as [|fuel IH]; intros st.
  - right. split; [lia|]. destruct st as [tr k]. simpl. by rewrite app_nil_r, Nat.add_0_r.
  - destruct (Done_reports w (polls st)) eqn:Hd.
    + left. exists 0%nat. rewrite Nat.add_0_r. split_and!; [lia|done|lia|].
      simpl. unfold mbind, Go_bind, Done. rewrite Hd. simpl.
      by rewrite Nat.add_1_r.
    + set (st1 := {| trace := trace st ++ [Done_call false; Sleep_call sleepDuration];
                     polls := S (polls st) |}).
      assert (Hstep : poll w (S fuel) m st = poll w fuel m st1).
      { simpl. unfold mbind, Go_bind, Done, Sleep, emit. rewrite Hd. simpl.
        unfold st1. by rewrite <- app_assoc. }
      rewrite Hstep.
      destruct (IH st1) as [(n & Hn & Ht & Hf & Hp)|[Hf Hp]]; simpl in *.
      * left. exists (S n). split_and!.
        -- lia.
        -- by rewrite Nat.add_succ_r.
        -- intros [|k] Hk; [by rewrite Nat.add_0_r|]. rewrite Nat.add_succ_r. apply Hf. lia.
        -- rewrite Hp. f_equal. f_equal; [|lia]. by rewrite <- !app_assoc.
      * right. split.
        -- intros [|k] Hk; [by rewrite Nat.add_0_r|]. rewrite Nat.add_succ_r. apply Hf. lia.
        -- rewrite Hp. f_equal. f_equal; [|lia]. by rewrite <- !app_assoc.
Qed.
End Polling.

Section CoordinatorMode.
Import Main.

Lemma waiting_no_coordinator n : ¬ starts_coordinator (waiting n).
Proof.
  intros (files & r & Hin). induction n as [|n IH]; simpl in Hin.
  - by apply elem_of_nil in Hin.
  - apply elem_of_cons in Hin as [?|Hin]; [done|].
    apply elem_of_cons in Hin as [?|Hin]; [done|]. by apply IH.
Qed.

Lemma too_few_length w : too_few w ↔ (length (os_Args w) < 3)%nat.
Proof. unfold too_few, len, minArgs. lia. Qed.

(** [runCoordinator] from the start of the process: it returns [nil] after
    the first poll that reports true, or is still in its loop. *)
Lemma runCoordinator_cases w fuel :
  (2 ≤ length (os_Args w))%nat →
  (∃ n, (n < fuel)%nat
        ∧ Done_reports w n = true
        ∧ (∀ k, (k < n)%nat → Done_reports w k = false)
        ∧ exec (runCoordinator w fuel) =
            (MakeCoordinator_call (drop 2 (os_Args w)) 10
               :: waiting n ++ [Done_call true; Sleep_call sleepDuration],
             Returns None))
  ∨ ((∀ k, (k < fuel)%nat → Done_reports w k = false)
     ∧ exec (runCoordinator w fuel) =
         (MakeCoordinator_call (drop 2 (os_Args w)) 10 :: waiting fuel, Running)).
Proof.
  intros Hlen.
  set (st1 := {| trace := [MakeCoordinator_call (drop 2 (os_Args w)) 10]; polls := 0 |}).
  assert (Hrun : runCoordinator w fuel st0 =
            (poll w fuel (drop 2 (os_Args w), 10) ≫= λ _, Sleep sleepDuration ≫= λ _, mret None) st1).
  { unfold runCoordinator, slice_from. rewrite decide_True by done. reflexivity. }
  unfold exec. rewrite Hrun.
  destruct (poll_cases w (drop 2 (os_Args w), 10) fuel st1) as [(n & Hn & Ht & Hf & Hp)|[Hf Hp]].
  - left. exists n. split_and!; [done..|].
    erewrite bind_Returns by exact Hp. simpl. by rewrite <- app_assoc.
  - right. split; [done|]. by erewrite bind_Running by exact Hp.
Qed.

(** In coordinator mode [run] is [runCoordinator]. *)
Lemma run_coordinator_mode w fuel st :
  ¬ too_few w → os_Args w !! 1%nat = Some coordinatorArg →
  run w fuel st = runCoordinator w fuel st.
Proof.
  intros Hfew Hmode. unfold run. rewrite decide_False by done.
  unfold index. rewrite Hmode. unfold mbind, Go_bind, mret, Go_ret.
  by rewrite decide_True.
Qed.

(** In worker mode [run] is [runWorker]. *)
Lemma run_worker_mode w fuel st :
  ¬ too_few w → os_Args w !! 1%nat = Some workerArg →
  run w fuel st = runWorker w st.
Proof.
  intros Hfew Hmode. unfold run. rewrite decide_False by done.
  unfold index. rewrite Hmode. unfold mbind, Go_bind, mret, Go_ret.
  rewrite decide_False by done. by rewrite decide_True.
Qed.

Lemma run_too_few w fuel :
  too_few w → exec (run w fuel) = ([], Returns (Some (errorString usage))).
Proof. intros Hfew. unfold exec, run. by rewrite decide_True. Qed.

Lemma run_invalid_mode w fuel mode :
  ¬ too_few w → os_Args w !! 1%nat = Some mode →
  mode ≠ coordinatorArg → mode ≠ workerArg →
  exec (run w fuel) = ([], Returns (Some (errorString (invalid_mode_message mode)))).
Proof.
  intros Hfew Hmode Hc Hw. unfold exec, run. rewrite decide_False by done.
  unfold index. rewrite Hmode. unfold mbind, Go_bind, mret, Go_ret.
  by rewrite !decide_False.
Qed.

(** C6: in coordinator mode the first call that leaves [run] constructs the
    coordinator, once, with the command-line arguments from position 2
    onward in their order and with the reduce partition count 10. *)
Theorem coordinator_constructed_from_args w fuel :
  ¬ too_few w → os_Args w !! 1%nat = Some coordinatorArg →
  ∃ files nReduce rest,
    events (run w fuel) = MakeCoordinator_call files nReduce :: rest
    ∧ ¬ starts_coordinator rest
    ∧ nReduce = 10 ∧ 0 < nReduce
    ∧ len files = len (os_Args w) - 2
    ∧ ∀ i : nat, files !! i = os_Args w !! (2 + i)%nat.
Proof.
  intros Hfew Hmode.
  assert (Hlen : (2 ≤ length (os_Args w))%nat) by (rewrite too_few_length in Hfew; lia).
  exists (drop 2 (os_Args w)), 10.
  assert (Hev : ∃ rest, events (run w fuel) =
                  MakeCoordinator_call (drop 2 (os_Args w)) 10 :: rest
                  ∧ ¬ starts_coordinator rest).
  { unfold events, exec. rewrite run_coordinator_mode by done.
    destruct (runCoordinator_cases w fuel Hlen) as [(n & _ & _ & _ & Hp)|[_ Hp]];
      unfold exec in Hp; rewrite Hp; simpl; eexists; (split; [reflexivity|]).
    - intros (files & r & Hin). apply elem_of_app in Hin as [Hin|Hin].
      + apply (waiting_no_coordinator n). by exists files, r.
      + apply elem_of_cons in Hin as [?|Hin]; [done|].
        apply elem_of_cons in Hin as [?|Hin]; [done|]. by apply elem_of_nil in Hin.
    - apply waiting_no_coordinator. }
  destruct Hev as (rest & Hev & Hrest). exists rest. split_and!; [done|done|done|done| |].
  - unfold len. rewrite length_drop. lia.
  - intros i. apply lookup_drop.
Qed.

Lemma coordinator_constructed_from_args_witness :
  let w := world ["mr_main"; "mrcoordinator"; "pg-1.txt"; "pg-2.txt"] in
  ¬ too_few w ∧ os_Args w !! 1%nat = Some coordinatorArg
  ∧ ∃ files nReduce rest,
      events (run w 5) = MakeCoordinator_call files nReduce :: rest
      ∧ ¬ starts_coordinator rest
      ∧ nReduce = 10 ∧ 0 < nReduce
      ∧ len files = len (os_Args w) - 2
      ∧ ∀ i : nat, files !! i = os_Args w !! (2 + i)%nat.
Proof.
  assert (Hfew : ¬ too_few (world ["mr_main"; "mrcoordinator"; "pg-1.txt"; "pg-2.txt"]))
    by (unfold too_few; vm_compute; discriminate).
  split; [exact Hfew|]. split; [reflexivity|].
  exact (coordinator_constructed_from_args _ 5 Hfew eq_refl).
Defined.
End CoordinatorMode.

Section PluginLoading.
Import Main.

(** ** [loadPlugin], case by case *)

Lemma loadPlugin_cannot_open w filename err st :
  plugin_Open w filename = inr err →
  loadPlugin w filename st =
    (st, Returns (None, None,
           Some (wrapError ("cannot load plugin " +:+ filename +:+ ": " +:+ Error err) err))).
Proof. intros H. unfold loadPlugin. by rewrite H. Qed.

Lemma loadPlugin_no_Map w filename p err st :
  plugin_Open w filename = inl p → Lookup p "Map" = inr err →
  loadPlugin w filename st =
    (st, Returns (None, None,
           Some (wrapError ("cannot find Map in plugin: " +:+ Error err) err))).
Proof. intros H HM. unfold loadPlugin, lookupPluginFunc. by rewrite H, HM. Qed.

Lemma loadPlugin_no_Reduce w filename p sm err st :
  plugin_Open w filename = inl p → Lookup p "Map" = inl sm → Lookup p "Reduce" = inr err →
  loadPlugin w filename st =
    (st, Returns (None, None,
           Some (wrapError ("cannot find Reduce in plugin: " +:+ Error err) err))).
Proof. intros H HM HR. unfold loadPlugin, lookupPluginFunc. by rewrite H, HM, HR. Qed.

Lemma loadPlugin_both w filename p sm sr st :
  plugin_Open w filename = inl p → Lookup p "Map" = inl sm → Lookup p "Reduce" = inl sr →
  loadPlugin w filename st =
    (mf ← assert_MapF sm; rf ← assert_ReduceF sr; mret (Some mf, Some rf, None)) st.
Proof. intros H HM HR. unfold loadPlugin, lookupPluginFunc. by rewrite H, HM, HR. Qed.

(** Whatever the plugin, [loadPlugin] makes none of the recorded calls,
    and it ends in one of three ways: both functions and a nil error, no
    function and an error, or a panic. *)
Lemma loadPlugin_cases w filename st :
  (∃ mf rf, loadPlugin w filename st = (st, Returns (Some mf, Some rf, None)))
  ∨ (∃ err, loadPlugin w filename st = (st, Returns (None, None, Some err)))
  ∨ (∃ reason, loadPlugin w filename st = (st, Panics reason)).
Proof.
  destruct (plugin_Open w filename) as [p|e] eqn:H.
  2:{ right; left. eexists. by apply loadPlugin_cannot_open. }
  destruct (Lookup p "Map") as [sm|e] eqn:HM.
  2:{ right; left. eexists. by eapply loadPlugin_no_Map. }
  destruct (Lookup p "Reduce") as [sr|e] eqn:HR.
  2:{ right; left. eexists. by eapply loadPlugin_no_Reduce. }
  rewrite (loadPlugin_both _ _ _ _ _ _ H HM HR).
  destruct sm, sr; try (right; right; eexists; reflexivity).
  left. by eexists _, _.
Qed.

(** [runWorker] after [loadPlugin]. *)
Lemma runWorker_load_error w filename err :
  os_Args w !! 2%nat = Some filename →
  loadPlugin w filename st0 = (st0, Returns (None, None, Some err)) →
  exec (runWorker w) = ([], Returns (Some err)).
Proof.
  intros Harg Hload. unfold exec, runWorker, index. rewrite Harg.
  unfold mbind at 1, Go_bind at 1. unfold mret at 1, Go_ret at 1.
  by erewrite bind_Returns by exact Hload.
Qed.

Lemma runWorker_load_panic w filename reason :
  os_Args w !! 2%nat = Some filename →
  loadPlugin w filename st0 = (st0, Panics reason) →
  exec (runWorker w) = ([], Panics reason).
Proof.
  intros Harg Hload. unfold exec, runWorker, index. rewrite Harg.
  unfold mbind at 1, Go_bind at 1. unfold mret at 1, Go_ret at 1.
  by erewrite bind_Panics by exact Hload.
Qed.

Lemma runWorker_loaded w filename mf rf :
  os_Args w !! 2%nat = Some filename →
  loadPlugin w filename st0 = (st0, Returns (Some mf, Some rf, None)) →
  exec (runWorker w) =
    ([Worker_call (Some mf) (Some rf)],
     match Worker_ends w (Some mf) (Some rf) with
     | Returns _ => Returns None
     | Panics reason => Panics reason
     | Exits code => Exits code
     | Running => Running
     end).
Proof.
  intros Harg Hload. unfold exec, runWorker, index. rewrite Harg.
  unfold mbind at 1, Go_bind at 1. unfold mret at 1, Go_ret at 1.
  erewrite bind_Returns by exact Hload.
  unfold mbind, Go_bind, Worker. simpl.
  by destruct (Worker_ends w (Some mf) (Some rf)).
Qed.

(** The plugin file cannot be loaded: it does not open, or it lacks the
    symbol [Map] or the symbol [Reduce]. *)
Lemma unloadable_error w filename :
  unloadable w filename ↔
  ∃ err, loadPlugin w filename st0 = (st0, Returns (None, None, Some err)).
Proof.
  unfold unloadable, exports. split.
  - destruct (plugin_Open w filename) as [p|e] eqn:H.
    2:{ intros _. eexists. by apply loadPlugin_cannot_open. }
    destruct (Lookup p "Map") as [sm|e] eqn:HM.
    2:{ intros _. eexists. by eapply loadPlugin_no_Map. }
    destruct (Lookup p "Reduce") as [sr|e] eqn:HR.
    2:{ intros _. eexists. by eapply loadPlugin_no_Reduce. }
    intros [[]|[]]; by eexists.
  - intros [err Hload].
    destruct (plugin_Open w filename) as [p|e] eqn:H; [|done].
    destruct (Lookup p "Map") as [sm|e] eqn:HM.
    2:{ left. by intros [? ?]. }
    destruct (Lookup p "Reduce") as [sr|e] eqn:HR.
    2:{ right. by intros [? ?]. }
    rewrite (loadPlugin_both _ _ _ _ _ _ H HM HR) in Hload.
    by destruct sm, sr.
Qed.
End PluginLoading.

Section WorkerStartup.
Import Main.

(** [main] after [run]: a nil error ends the process normally, an error is
    logged by [log.Fatal], which exits with status 1; a panic, an exit and
    a call still running pass through. *)
Lemma main_exec w fuel :
  exec (main w fuel) =
    match outcome (run w fuel) with
    | Returns None => (events (run w fuel), Returns tt)
    | Returns (Some e) => (events (run w fuel) ++ [Fatal_call (Error e)], Exits 1)
    | Panics reason => (events (run w fuel), Panics reason)
    | Exits code => (events (run w fuel), Exits code)
    | Running => (events (run w fuel), Running)
    end.
Proof.
  unfold events, outcome, exec, main, mbind, Go_bind.
  destruct (run w fuel st0) as [st [[e|]| | |]]; reflexivity.
Qed.

Lemma args_lookup w (i : nat) :
  ¬ too_few w → (i < 3)%nat → ∃ a, os_Args w !! i = Some a.
Proof.
  intros Hfew Hi. rewrite too_few_length in Hfew.
  apply lookup_lt_is_Some_2. lia.
Qed.

(** C7, amended: [loadPlugin] returns both functions and a nil error when
    the plugin file opens and exports [Map] and [Reduce] with the function
    types the worker expects, and [runWorker] then starts the worker with
    them; it returns nil functions and a non-nil error when the file does
    not open or either symbol is missing, and [runWorker] then returns that
    error without starting the worker. *)
Theorem loadPlugin_resolves_or_fails w filename :
  (∀ p mf rf,
      plugin_Open w filename = inl p →
      Lookup p "Map" = inl (MapFunc mf) →
      Lookup p "Reduce" = inl (ReduceFunc rf) →
      exec (loadPlugin w filename) = ([], Returns (Some mf, Some rf, None))
      ∧ (os_Args w !! 2%nat = Some filename →
         events (runWorker w) = [Worker_call (Some mf) (Some rf)]))
  ∧ (unloadable w filename →
     ∃ err,
       exec (loadPlugin w filename) = ([], Returns (None, None, Some err))
       ∧ (os_Args w !! 2%nat = Some filename →
          exec (runWorker w) = ([], Returns (Some err)))).
Proof.
  split.
  - intros p mf rf H HM HR.
    assert (Hload : loadPlugin w filename st0 = (st0, Returns (Some mf, Some rf, None)))
      by (by rewrite (loadPlugin_both _ _ _ _ _ _ H HM HR)).
    split; [unfold exec; by rewrite Hload|].
    intros Harg. unfold events. by rewrite (runWorker_loaded _ _ _ _ Harg Hload).
  - intros Hun. apply unloadable_error in Hun as [err Hload]. exists err.
    split; [unfold exec; by rewrite Hload|].
    intros Harg. by eapply runWorker_load_error.
Qed.

Lemma loadPlugin_resolves_or_fails_witness :
  exec (loadPlugin (world ["mr_main"; "mrworker"; "wordcount.so"]) "wordcount.so")
    = ([], Returns (Some wordcount_Map, Some wordcount_Reduce, None))
  ∧ ∃ err,
      exec (loadPlugin (world ["mr_main"; "mrworker"; "map_only.so"]) "map_only.so")
        = ([], Returns (None, None, Some err))
      ∧ exec (runWorker (world ["mr_main"; "mrworker"; "map_only.so"]))
        = ([], Returns (Some err)).
Proof.
  split.
  - exact (proj1 (proj1 (loadPlugin_resolves_or_fails
                   (world ["mr_main"; "mrworker"; "wordcount.so"]) "wordcount.so")
                   wordcount_plugin wordcount_Map wordcount_Reduce
                   eq_refl eq_refl eq_refl)).
  - destruct (proj2 (loadPlugin_resolves_or_fails
                   (world ["mr_main"; "mrworker"; "map_only.so"]) "map_only.so"))
      as (err & Hload & Hrun).
    + right. intros [symbol Hs]. discriminate Hs.
    + exists err. split; [exact Hload|exact (Hrun eq_refl)].
Defined.

(** C7 as stated fails: a plugin file that opens and exports both symbols,
    [Map] with another type, makes [loadPlugin] panic instead of returning. *)
Lemma loadPlugin_exported_symbols_not_enough :
  plugin_Open (world ["mr_main"; "mrworker"; "mistyped.so"]) "mistyped.so"
    = inl mistyped_plugin
  ∧ exports mistyped_plugin "Map" ∧ exports mistyped_plugin "Reduce"
  ∧ exec (loadPlugin (world ["mr_main"; "mrworker"; "mistyped.so"]) "mistyped.so")
    = ([], Panics ("interface conversion: plugin.Symbol is func(string) string, "
                   +:+ "not func(string, string) []mr.KeyValue")).
Proof.
  split_and!; [reflexivity| | |reflexivity].
  - by eexists.
  - by eexists.
Qed.

(** C10: when the plugin opens and exports both symbols but [Map] or
    [Reduce] has not the asserted function type, the type assertion
    panics: [loadPlugin] returns no error, [runWorker] does not return, and
    the worker process ends in the panic, before the worker is started and
    without [log.Fatal]. *)
Theorem loadPlugin_unchecked_assertion w filename p sm sr :
  plugin_Open w filename = inl p →
  Lookup p "Map" = inl sm → Lookup p "Reduce" = inl sr →
  (∀ mf, sm ≠ MapFunc mf) ∨ (∀ rf, sr ≠ ReduceFunc rf) →
  ∃ reason,
    exec (loadPlugin w filename) = ([], Panics reason)
    ∧ (os_Args w !! 2%nat = Some filename →
       exec (runWorker w) = ([], Panics reason)
       ∧ (¬ too_few w → os_Args w !! 1%nat = Some workerArg →
          ∀ fuel, exec (main w fuel) = ([], Panics reason))).
Proof.
  intros H HM HR Hty.
  assert (Hload : ∃ reason, loadPlugin w filename st0 = (st0, Panics reason)).
  { rewrite (loadPlugin_both _ _ _ _ _ _ H HM HR).
    destruct sm as [mf| |], sr as [|rf|]; try (eexists; reflexivity).
    destruct Hty as [Hty|Hty]; [by destruct (Hty mf)|by destruct (Hty rf)]. }
  destruct Hload as [reason Hload]. exists reason.
  split; [unfold exec; by rewrite Hload|].
  intros Harg.
  assert (Hrun : exec (runWorker w) = ([], Panics reason))
    by (by eapply runWorker_load_panic).
  split; [done|]. intros Hfew Hmode fuel.
  assert (Hsame : exec (run w fuel) = exec (runWorker w))
    by (unfold exec; by rewrite run_worker_mode).
  rewrite main_exec. unfold outcome, events. by rewrite Hsame, Hrun.
Qed.

Lemma loadPlugin_unchecked_assertion_witness :
  ∃ reason,
    exec (loadPlugin (world ["mr_main"; "mrworker"; "mistyped.so"]) "mistyped.so")
      = ([], Panics reason)
    ∧ exec (runWorker (world ["mr_main"; "mrworker"; "mistyped.so"])) = ([], Panics reason)
    ∧ ∀ fuel, exec (main (world ["mr_main"; "mrworker"; "mistyped.so"]) fuel)
              = ([], Panics reason).
Proof.
  destruct (loadPlugin_unchecked_assertion
              (world ["mr_main"; "mrworker"; "mistyped.so"]) "mistyped.so"
              mistyped_plugin (OtherSymbol "func(string) string")
              (ReduceFunc wordcount_Reduce) eq_refl eq_refl eq_refl)
    as (reason & Hload & Hrun).
  - left. intros mf. discriminate.
  - exists reason. destruct (Hrun eq_refl) as [Hw Hmain].
    split; [exact Hload|]. split; [exact Hw|].
    apply Hmain; [unfold too_few; vm_compute; discriminate|reflexivity].
Defined.
End WorkerStartup.

Section EntryPoint.
Import Main.

Lemma exec_run_coordinator_mode w fuel :
  ¬ too_few w → os_Args w !! 1%nat = Some coordinatorArg →
  exec (run w fuel) = exec (runCoordinator w fuel).
Proof. intros. unfold exec. by rewrite run_coordinator_mode. Qed.

Lemma exec_run_worker_mode w fuel :
  ¬ too_few w → os_Args w !! 1%nat = Some workerArg →
  exec (run w fuel) = exec (runWorker w).
Proof. intros. unfold exec. by rewrite run_worker_mode. Qed.

(** C8: in coordinator mode [runCoordinator] returns only [nil], and only
    after a call of [Done()] has reported true, every earlier one having
    been followed by a sleep; it neither panics nor exits; once [Done()]
    reports true it does return; and while [Done()] reports false it is
    still in its loop after any number of rounds, so that the process has
    not ended. *)
Theorem coordinator_exits_only_after_Done w :
  ¬ too_few w → os_Args w !! 1%nat = Some coordinatorArg →
  (∀ fuel r,
      outcome (runCoordinator w fuel) = Returns r →
      r = None
      ∧ ∃ n, (n < fuel)%nat ∧ Done_reports w n = true
             ∧ events (runCoordinator w fuel) =
                 MakeCoordinator_call (drop 2 (os_Args w)) 10
                   :: waiting n ++ [Done_call true; Sleep_call sleepDuration])
  ∧ (∀ fuel,
        outcome (runCoordinator w fuel) = Returns None
        ∨ outcome (runCoordinator w fuel) = Running)
  ∧ (∀ n, Done_reports w n = true →
          ∀ fuel, (n < fuel)%nat → outcome (runCoordinator w fuel) = Returns None)
  ∧ ((∀ k, Done_reports w k = false) →
     ∀ fuel,
       exec (runCoordinator w fuel) =
         (MakeCoordinator_call (drop 2 (os_Args w)) 10 :: waiting fuel, Running)
       ∧ outcome (main w fuel) = Running)
  ∧ (∀ fuel,
        outcome (main w fuel) = Returns tt →
        Done_call true ∈ events (main w fuel)).
Proof.
  intros Hfew Hmode.
  assert (Hlen : (2 ≤ length (os_Args w))%nat) by (rewrite too_few_length in Hfew; lia).
  split_and!.
  - intros fuel r Hr. unfold outcome, events in *.
    destruct (runCoordinator_cases w fuel Hlen) as [(n & Hn & Ht & _ & Hp)|[_ Hp]];
      rewrite Hp in Hr |- *; simpl in *; [|done].
    split; [congruence|]. by exists n.
  - intros fuel. unfold outcome.
    destruct (runCoordinator_cases w fuel Hlen) as [(n & _ & _ & _ & Hp)|[_ Hp]];
      rewrite Hp; auto.
  - intros n Hn fuel Hfuel. unfold outcome.
    destruct (runCoordinator_cases w fuel Hlen) as [(m & _ & _ & _ & Hp)|[Hf Hp]];
      rewrite Hp; [done|].
    rewrite Hf in Hn by done. done.
  - intros Hnever fuel.
    assert (Hp : exec (runCoordinator w fuel) =
              (MakeCoordinator_call (drop 2 (os_Args w)) 10 :: waiting fuel, Running)).
    { destruct (runCoordinator_cases w fuel Hlen) as [(n & _ & Ht & _)|[_ Hp]]; [|done].
      by rewrite Hnever in Ht. }
    split; [done|]. unfold outcome at 1. rewrite main_exec. unfold outcome, events.
    by rewrite (exec_run_coordinator_mode w fuel Hfew Hmode), Hp.
  - intros fuel. unfold outcome at 1, events at 1. rewrite main_exec.
    unfold outcome, events. rewrite (exec_run_coordinator_mode w fuel Hfew Hmode).
    destruct (runCoordinator_cases w fuel Hlen) as [(n & _ & _ & _ & Hp)|[_ Hp]];
      rewrite Hp; simpl; [|done].
    intros _. apply elem_of_cons. right. apply elem_of_app. right. apply elem_of_cons. by left.
Qed.

Lemma coordinator_exits_only_after_Done_witness :
  exec (runCoordinator (stalled_world ["mr_main"; "mrcoordinator"; "pg-1.txt"]) 3)
    = (MakeCoordinator_call ["pg-1.txt"] 10 :: waiting 3, Running)
  ∧ outcome (main (stalled_world ["mr_main"; "mrcoordinator"; "pg-1.txt"]) 3) = Running
  ∧ outcome (runCoordinator (world ["mr_main"; "mrcoordinator"; "pg-1.txt"]) 3)
    = Returns None.
Proof.
  assert (Hfew : ∀ P D W, ¬ too_few
            {| os_Args := ["mr_main"; "mrcoordinator"; "pg-1.txt"];
               plugin_Open := P; Done_reports := D; Worker_ends := W |})
    by (intros; unfold too_few; vm_compute; discriminate).
  split_and!.
  - exact (proj1 (proj1 (proj2 (proj2 (proj2
             (coordinator_exits_only_after_Done
                (stalled_world ["mr_main"; "mrcoordinator"; "pg-1.txt"])
                (Hfew _ _ _) eq_refl))))
             (λ _, eq_refl) 3%nat)).
  - exact (proj2 (proj1 (proj2 (proj2 (proj2
             (coordinator_exits_only_after_Done
                (stalled_world ["mr_main"; "mrcoordinator"; "pg-1.txt"])
                (Hfew _ _ _) eq_refl))))
             (λ _, eq_refl) 3%nat)).
  - refine (proj1 (proj2 (proj2
             (coordinator_exits_only_after_Done
                (world ["mr_main"; "mrcoordinator"; "pg-1.txt"])
                (Hfew _ _ _) eq_refl)))
             2%nat eq_refl 3%nat _). lia.
Defined.

Lemma usage_not_invalid_mode mode : usage ≠ invalid_mode_message mode.
Proof. unfold usage, invalid_mode_message. simpl. discriminate. Qed.

(** The outcome of [run] in worker mode is an error exactly when the plugin
    file cannot be loaded, and then none of the recorded calls was made. *)
Lemma runWorker_error_iff w filename :
  os_Args w !! 2%nat = Some filename →
  ((∃ err, outcome (runWorker w) = Returns (Some err)) ↔ unloadable w filename)
  ∧ ((∃ err, outcome (runWorker w) = Returns (Some err)) → events (runWorker w) = []).
Proof.
  intros Harg. unfold outcome, events.
  destruct (loadPlugin_cases w filename st0) as [(mf & rf & Hl)|[(err & Hl)|(reason & Hl)]].
  - rewrite (runWorker_loaded _ _ _ _ Harg Hl). simpl. split; [split|].
    + intros [err Herr]. by destruct (Worker_ends w (Some mf) (Some rf)).
    + intros [err' Hl']%unloadable_error. congruence.
    + intros [err Herr]. by destruct (Worker_ends w (Some mf) (Some rf)).
  - rewrite (runWorker_load_error _ _ _ Harg Hl). simpl. split; [split|].
    + intros _. apply unloadable_error. by exists err.
    + intros _. by exists err.
    + done.
  - rewrite (runWorker_load_panic _ _ _ Harg Hl). simpl. split; [split|].
    + by intros [err Herr].
    + intros [err' Hl']%unloadable_error. congruence.
    + by intros [err Herr].
Qed.

(** The four ways through [run]. *)
Lemma run_cases w fuel :
  (too_few w ∧ exec (run w fuel) = ([], Returns (Some (errorString usage))))
  ∨ (¬ too_few w ∧ os_Args w !! 1%nat = Some coordinatorArg
     ∧ (exec (run w fuel) = exec (runCoordinator w fuel)
        ∧ ∀ err, outcome (runCoordinator w fuel) ≠ Returns (Some err)))
  ∨ (¬ too_few w ∧ os_Args w !! 1%nat = Some workerArg
     ∧ exec (run w fuel) = exec (runWorker w)
     ∧ ∃ filename, os_Args w !! 2%nat = Some filename)
  ∨ (¬ too_few w
     ∧ ∃ mode, os_Args w !! 1%nat = Some mode
               ∧ mode ≠ coordinatorArg ∧ mode ≠ workerArg
               ∧ exec (run w fuel) =
                   ([], Returns (Some (errorString (invalid_mode_message mode))))).
Proof.
  destruct (decide (too_few w)) as [Hfew|Hfew].
  { left. split; [done|]. by apply run_too_few. }
  right.
  destruct (args_lookup w 1 Hfew) as [mode Hmode]; [lia|].
  destruct (args_lookup w 2 Hfew) as [filename Harg]; [lia|].
  destruct (decide (mode = coordinatorArg)) as [->|Hc].
  { left. split_and!; [done|done|by apply exec_run_coordinator_mode|].
    intros err. unfold outcome.
    assert (Hlen : (2 ≤ length (os_Args w))%nat)
      by (rewrite too_few_length in Hfew; lia).
    destruct (runCoordinator_cases w fuel Hlen) as [(n & _ & _ & _ & Hp)|[_ Hp]];
      by rewrite Hp. }
  right.
  destruct (decide (mode = workerArg)) as [->|Hw].
  { left. split_and!; [done|done|by apply exec_run_worker_mode|]. by exists filename. }
  right. split; [done|]. exists mode. split_and!; [done..|]. by apply run_invalid_mode.
Qed.

(** C9, amended: [run] returns a non-nil error exactly when there are
    fewer than three command-line arguments, or the first argument is
    neither "mrcoordinator" nor "mrworker", or it is "mrworker" and the
    plugin file cannot be loaded; in each case neither a coordinator nor a
    worker has been started; the error for too few arguments is the usage
    message, the one for an unknown mode names the argument, and the two
    messages differ; in worker mode the error [run] returns is the very
    error [loadPlugin] returned for the plugin file, and [run] returns an
    error whenever [loadPlugin] does. *)
Theorem run_error_cases w fuel :
  ((∃ err, outcome (run w fuel) = Returns (Some err)) ↔
     too_few w ∨ invalid_mode w
     ∨ (¬ too_few w ∧ os_Args w !! 1%nat = Some workerArg
        ∧ ∃ filename, os_Args w !! 2%nat = Some filename ∧ unloadable w filename))
  ∧ ((∃ err, outcome (run w fuel) = Returns (Some err)) → events (run w fuel) = [])
  ∧ (too_few w → outcome (run w fuel) = Returns (Some (errorString usage)))
  ∧ (∀ mode, ¬ too_few w → os_Args w !! 1%nat = Some mode →
             mode ≠ coordinatorArg → mode ≠ workerArg →
             outcome (run w fuel) = Returns (Some (errorString (invalid_mode_message mode))))
  ∧ (∀ mode, usage ≠ invalid_mode_message mode)
  ∧ (∀ filename err,
       ¬ too_few w → os_Args w !! 1%nat = Some workerArg →
       os_Args w !! 2%nat = Some filename →
       (outcome (run w fuel) = Returns (Some err) ↔
        outcome (loadPlugin w filename) = Returns (None, None, Some err))).
Proof.
  split_and!.
  - destruct (run_cases w fuel)
      as [[Hfew Hp]|[(Hfew & Hmode & Hp & Hno)|[(Hfew & Hmode & Hp & f & Harg)
         |(Hfew & mode & Hmode & Hc & Hw & Hp)]]]; unfold outcome; rewrite Hp.
    + split; [by left|]. intros _. by eexists.
    + split.
      * intros [err Herr]. by destruct (Hno err).
      * intros [?|[(m & Hm & Hmc & _)|(_ & Hm & _)]]; [done|congruence|].
        rewrite Hmode in Hm. discriminate Hm.
    + destruct (runWorker_error_iff w f Harg) as [Hiff _]. unfold outcome in Hiff.
      rewrite Hiff. split.
      * intros Hun. right; right. split_and!; [done..|]. by exists f.
      * intros [?|[(m & Hm & _ & Hmw)|(_ & _ & f' & Hf & Hun)]]; [done|congruence|].
        congruence.
    + split; [|intros _; by eexists]. intros _. right; left. by exists mode.
  - destruct (run_cases w fuel)
      as [[Hfew Hp]|[(Hfew & Hmode & Hp & Hno)|[(Hfew & Hmode & Hp & f & Harg)
         |(Hfew & mode & Hmode & Hc & Hw & Hp)]]]; unfold outcome, events; rewrite Hp.
    + done.
    + intros [err Herr]. by destruct (Hno err).
    + by destruct (runWorker_error_iff w f Harg) as [_ Hev].
    + done.
  - intros Hfew. unfold outcome. by rewrite run_too_few.
  - intros mode ????. unfold outcome. by rewrite (run_invalid_mode w fuel mode).
  - apply usage_not_invalid_mode.
  - intros filename err Hfew Hmode Harg. unfold outcome.
    rewrite (exec_run_worker_mode w fuel Hfew Hmode).
    destruct (loadPlugin_cases w filename st0)
      as [(mf & rf & Hl)|[(e & Hl)|(reason & Hl)]].
    + rewrite (runWorker_loaded _ _ _ _ Harg Hl). unfold exec. rewrite Hl. simpl.
      split; [|done]. by destruct (Worker_ends w (Some mf) (Some rf)).
    + rewrite (runWorker_load_error _ _ _ Harg Hl). unfold exec. rewrite Hl. simpl.
      split; by intros [= ->].
    + rewrite (runWorker_load_panic _ _ _ Harg Hl). unfold exec. rewrite Hl. simpl.
      by split.
Qed.

Lemma run_error_cases_witness :
  outcome (run (world ["mr_main"]) 0) = Returns (Some (errorString usage))
  ∧ outcome (run (world ["mr_main"; "mrmaster"; "wordcount.so"]) 0)
    = Returns (Some (errorString
        "Invalid argument: mrmaster. Use 'mrcoordinator' or 'mrworker'"))
  ∧ ∃ err,
      outcome (loadPlugin (world ["mr_main"; "mrworker"; "map_only.so"]) "map_only.so")
        = Returns (None, None, Some err)
      ∧ outcome (run (world ["mr_main"; "mrworker"; "map_only.so"]) 0)
        = Returns (Some err).
Proof.
  split_and!.
  - apply (proj1 (proj2 (proj2 (run_error_cases (world ["mr_main"]) 0)))).
    unfold too_few. vm_compute. reflexivity.
  - apply (proj1 (proj2 (proj2 (proj2
             (run_error_cases (world ["mr_main"; "mrmaster"; "wordcount.so"]) 0))))
             "mrmaster").
    + unfold too_few. vm_compute. discriminate.
    + reflexivity.
    + discriminate.
    + discriminate.
  - eexists. split; [reflexivity|].
    apply (proj2 (proj2 (proj2 (proj2 (proj2
             (run_error_cases (world ["mr_main"; "mrworker"; "map_only.so"]) 0)))))
             "map_only.so").
    + unfold too_few. vm_compute. discriminate.
    + reflexivity.
    + reflexivity.
    + reflexivity.
Defined.

(** C9 as stated fails: in worker mode with a plugin file that does not
    open, [run] returns a non-nil error without starting a coordinator or a
    worker, although there are three arguments and the first is "mrworker". *)
Lemma run_error_also_for_unloadable_plugin :
  outcome (run (world ["mr_main"; "mrworker"; "missing.so"]) 0)
    = Returns (Some (wrapError
        "cannot load plugin missing.so: plugin.Open(missing.so): realpath failed"
        (errorString "plugin.Open(missing.so): realpath failed")))
  ∧ events (run (world ["mr_main"; "mrworker"; "missing.so"]) 0) = []
  ∧ ¬ too_few (world ["mr_main"; "mrworker"; "missing.so"])
  ∧ ¬ invalid_mode (world ["mr_main"; "mrworker"; "missing.so"]).
Proof.
  split_and!; [reflexivity|reflexivity| |].
  - unfold too_few. vm_compute. discriminate.
  - intros (mode & Hmode & _ & Hw). simpl in Hmode. by simplify_eq.
Qed.
End EntryPoint.

Section Runs.
Import Main.

(** The coordinator on two input files: the job is done at the third poll. *)
Example main_coordinator_run :
  exec (main (world ["mr_main"; "mrcoordinator"; "pg-1.txt"; "pg-2.txt"]) 5) =
    ([ MakeCoordinator_call ["pg-1.txt"; "pg-2.txt"] 10;
       Done_call false; Sleep_call sleepDuration;
       Done_call false; Sleep_call sleepDuration;
       Done_call true; Sleep_call sleepDuration ],
     Returns tt).
Proof. reflexivity. Qed.

(** The same command line with workers that never answer, seen for three
    rounds of the loop. *)
Example main_coordinator_stalled :
  exec (main (stalled_world ["mr_main"; "mrcoordinator"; "pg-1.txt"; "pg-2.txt"]) 3) =
    (MakeCoordinator_call ["pg-1.txt"; "pg-2.txt"] 10 :: waiting 3, Running).
Proof. reflexivity. Qed.

(** A worker with the word-count plugin serves until it is killed. *)
Example main_worker_run :
  exec (main (world ["mr_main"; "mrworker"; "wordcount.so"]) 0) =
    ([Worker_call (Some wordcount_Map) (Some wordcount_Reduce)], Running).
Proof. reflexivity. Qed.

(** A worker whose plugin lacks [Reduce] ends in [log.Fatal]. *)
Example main_worker_without_Reduce :
  exec (main (world ["mr_main"; "mrworker"; "map_only.so"]) 0) =
    ([Fatal_call "cannot find Reduce in plugin: plugin: symbol Reduce not found"],
     Exits 1).
Proof. reflexivity. Qed.

(** Too few arguments, and an unknown mode. *)
Example main_usage :
  exec (main (world ["mr_main"; "mrcoordinator"]) 0) = ([Fatal_call usage], Exits 1).
Proof. reflexivity. Qed.

Example main_invalid_mode :
  exec (main (world ["mr_main"; "mrmaster"; "pg-1.txt"]) 0) =
    ([Fatal_call "Invalid argument: mrmaster. Use 'mrcoordinator' or 'mrworker'"],
     Exits 1).
Proof. reflexivity. Qed.
End Runs.

(** * The entry point: further properties of [main.go] *)

Section PluginErrors.
Import Main.

(** What [loadPlugin] returned tells what the plugin file holds. *)
Lemma loadPlugin_Returns_inv w filename st st' mapf reducef err :
  loadPlugin w filename st = (st', Returns (mapf, reducef, err)) →
  st' = st
  ∧ ((∃ p mf rf, plugin_Open w filename = inl p
                 ∧ Lookup p "Map" = inl (MapFunc mf)
                 ∧ Lookup p "Reduce" = inl (ReduceFunc rf)
                 ∧ mapf = Some mf ∧ reducef = Some rf ∧ err = None)
     ∨ (∃ e0, plugin_Open w filename = inr e0
              ∧ mapf = None ∧ reducef = None
              ∧ err = Some (wrapError ("cannot load plugin " +:+ filename +:+ ": "
                                       +:+ Error e0) e0))
     ∨ (∃ p e0, plugin_Open w filename = inl p ∧ Lookup p "Map" = inr e0
                ∧ mapf = None ∧ reducef = None
                ∧ err = Some (wrapError ("cannot find Map in plugin: " +:+ Error e0) e0))
     ∨ (∃ p sm e0, plugin_Open w filename = inl p ∧ Lookup p "Map" = inl sm
                   ∧ Lookup p "Reduce" = inr e0
                   ∧ mapf = None ∧ reducef = None
                   ∧ err = Some (wrapError ("cannot find Reduce in plugin: "
                                            +:+ Error e0) e0))).
Proof.
  destruct (plugin_Open w filename) as [p|e0] eqn:H.
  2:{ rewrite (loadPlugin_cannot_open _ _ _ _ H). intros [= <- <- <- <-].
      split; [done|]. right; left. by exists e0. }
  destruct (Lookup p "Map") as [sm|e0] eqn:HM.
  2:{ rewrite (loadPlugin_no_Map _ _ _ _ _ H HM). intros [= <- <- <- <-].
      split; [done|]. right; right; left. by exists p, e0. }
  destruct (Lookup p "Reduce") as [sr|e0] eqn:HR.
  2:{ rewrite (loadPlugin_no_Reduce _ _ _ _ _ _ H HM HR). intros [= <- <- <- <-].
      split; [done|]. right; right; right. by exists p, sm, e0. }
  rewrite (loadPlugin_both _ _ _ _ _ _ H HM HR).
  destruct sm as [mf| |], sr as [|rf|]; try (by intros [=]).
  intros [= <- <- <- <-]. split; [done|]. left. by exists p, mf, rf.
Qed.

(** X4: an error [loadPlugin] returns comes with no function, and it wraps
    the error the plugin package gave: the one of [plugin.Open] under the
    file's name, else the one of the lookup of [Map], else, [Map] being
    found, the one of the lookup of [Reduce]; its message is the prefix of
    the format followed by the message of the wrapped error. *)
Theorem loadPlugin_error_provenance w filename st st' mapf reducef e :
  loadPlugin w filename st = (st', Returns (mapf, reducef, Some e)) →
  st' = st ∧ mapf = None ∧ reducef = None
  ∧ ∃ e0, Unwrap e = Some e0
          ∧ ((plugin_Open w filename = inr e0
              ∧ Error e = "cannot load plugin " +:+ filename +:+ ": " +:+ Error e0)
             ∨ (∃ p, plugin_Open w filename = inl p
                     ∧ ((Lookup p "Map" = inr e0
                         ∧ Error e = "cannot find Map in plugin: " +:+ Error e0)
                        ∨ (exports p "Map" ∧ Lookup p "Reduce" = inr e0
                           ∧ Error e = "cannot find Reduce in plugin: " +:+ Error e0)))).
Proof.
  intros [-> [Hok|[Hopen|[HMap|HReduce]]]]%loadPlugin_Returns_inv.
  - by destruct Hok as (p & mf & rf & _ & _ & _ & _ & _ & ?).
  - destruct Hopen as (e0 & H & -> & -> & [= ->]). split_and!; [done..|].
    exists e0. split; [done|]. by left.
  - destruct HMap as (p & e0 & H & HM & -> & -> & [= ->]). split_and!; [done..|].
    exists e0. split; [done|]. right. exists p. split; [done|]. by left.
  - destruct HReduce as (p & sm & e0 & H & HM & HR & -> & -> & [= ->]).
    split_and!; [done..|].
    exists e0. split; [done|]. right. exists p. split; [done|]. right.
    split_and!; [by exists sm|done|done].
Qed.

Lemma loadPlugin_error_provenance_witness :
  ∃ e0, Unwrap (wrapError "cannot find Reduce in plugin: plugin: symbol Reduce not found"
                          (not_found "Reduce")) = Some e0
        ∧ Lookup map_only_plugin "Reduce" = inr e0.
Proof.
  destruct (loadPlugin_error_provenance
              (world ["mr_main"; "mrworker"; "map_only.so"]) "map_only.so" st0 st0
              None None
              (wrapError "cannot find Reduce in plugin: plugin: symbol Reduce not found"
                         (not_found "Reduce")) eq_refl)
    as (_ & _ & _ & e0 & Hun & [[Hopen _]|(p & Hopen & [[HM _]|(_ & HR & _)])]).
  - discriminate Hopen.
  - injection Hopen as <-. discriminate HM.
  - injection Hopen as <-. by exists e0.
Defined.
End PluginErrors.

Section ArgumentGuard.
Import Main.

Lemma waiting_coordinator_events n : Forall (λ e, coordinator_event e = true) (waiting n).
Proof. induction n as [|n IH]; simpl; by repeat constructor. Qed.

(** Every call [runCoordinator] makes is one of its own. *)
Lemma runCoordinator_events_kind w fuel :
  (2 ≤ length (os_Args w))%nat →
  Forall (λ e, coordinator_event e = true) (events (runCoordinator w fuel)).
Proof.
  intros Hlen. unfold events.
  destruct (runCoordinator_cases w fuel Hlen) as [(n & _ & _ & _ & Hp)|[_ Hp]];
    rewrite Hp; simpl; constructor; try done.
  - apply Forall_app. split; [apply waiting_coordinator_events|by repeat constructor].
  - apply waiting_coordinator_events.
Qed.

(** The three ways through [runWorker] once the plugin file is named. *)
Lemma runWorker_cases w filename :
  os_Args w !! 2%nat = Some filename →
  (∃ mf rf, loadPlugin w filename st0 = (st0, Returns (Some mf, Some rf, None))
            ∧ exec (runWorker w) =
                ([Worker_call (Some mf) (Some rf)],
                 match Worker_ends w (Some mf) (Some rf) with
                 | Returns _ => Returns None
                 | Panics reason => Panics reason
                 | Exits code => Exits code
                 | Running => Running
                 end))
  ∨ (∃ err, loadPlugin w filename st0 = (st0, Returns (None, None, Some err))
            ∧ exec (runWorker w) = ([], Returns (Some err)))
  ∨ (∃ reason, loadPlugin w filename st0 = (st0, Panics reason)
               ∧ exec (runWorker w) = ([], Panics reason)).
Proof.
  intros Harg.
  destruct (loadPlugin_cases w filename st0) as [(mf & rf & Hl)|[(err & Hl)|(reason & Hl)]].
  - left. exists mf, rf. split; [done|]. by eapply runWorker_loaded.
  - right; left. exists err. split; [done|]. by eapply runWorker_load_error.
  - right; right. exists reason. split; [done|]. by eapply runWorker_load_panic.
Qed.

(** X2: the check on the number of arguments is what keeps the two modes
    from panicking. Called with fewer than two arguments [runCoordinator]
    panics on its slice expression, and [runWorker] with fewer than three
    on its index expression, each before any call has left the file; with
    exactly two arguments [runCoordinator] would construct the coordinator
    with no input file; through [run] the coordinator is never given an
    empty list of input files. *)
Theorem unguarded_modes_panic w fuel :
  ((length (os_Args w) < 2)%nat →
     events (runCoordinator w fuel) = []
     ∧ ∃ reason, outcome (runCoordinator w fuel) = Panics reason)
  ∧ (length (os_Args w) = 2%nat →
     ∃ rest, events (runCoordinator w fuel) = MakeCoordinator_call [] 10 :: rest)
  ∧ ((length (os_Args w) < 3)%nat →
     events (runWorker w) = [] ∧ ∃ reason, outcome (runWorker w) = Panics reason)
  ∧ (∀ files nReduce,
       MakeCoordinator_call files nReduce ∈ events (run w fuel) → files ≠ []).
Proof.
  split_and!.
  - intros Hlen. unfold events, outcome, exec, runCoordinator, slice_from.
    rewrite decide_False by lia. split; [done|]. by eexists.
  - intros Hlen.
    destruct (runCoordinator_cases w fuel) as [(n & _ & _ & _ & Hp)|[_ Hp]]; [lia| |];
      unfold events; rewrite Hp; simpl; rewrite drop_ge by lia; by eexists.
  - intros Hlen. unfold events, outcome, exec, runWorker, index.
    rewrite (lookup_ge_None_2 (os_Args w) 2) by lia. split; [done|]. by eexists.
  - intros files nReduce. unfold events.
    destruct (run_cases w fuel)
      as [[Hfew Hp]|[(Hfew & Hmode & Hp & Hno)|[(Hfew & Hmode & Hp & f & Harg)
         |(Hfew & mode & Hmode & Hc & Hw & Hp)]]]; rewrite Hp; simpl.
    + by intros ?%elem_of_nil.
    + assert (Hlen : (3 ≤ length (os_Args w))%nat)
        by (rewrite too_few_length in Hfew; lia).
      assert (Hfiles : ∀ rest, MakeCoordinator_call files nReduce
                                 ∈ MakeCoordinator_call (drop 2 (os_Args w)) 10 :: rest →
                               ¬ starts_coordinator rest → files ≠ []).
      { intros rest [Heq|Hin]%elem_of_cons Hrest.
        - injection Heq as -> _. intros Hnil%(f_equal length).
          rewrite length_drop in Hnil. simpl in Hnil. lia.
        - destruct Hrest. by exists files, nReduce. }
      destruct (runCoordinator_cases w fuel) as [(n & _ & _ & _ & Hq)|[_ Hq]]; [lia| |];
        rewrite Hq; simpl; intros Hin; eapply Hfiles; [exact Hin| |exact Hin|].
      * intros (fs & r & [Hw|Hd]%elem_of_app).
        -- apply (waiting_no_coordinator n). by exists fs, r.
        -- apply elem_of_cons in Hd as [?|Hd]; [done|].
           apply elem_of_cons in Hd as [?|Hd]; [done|]. by apply elem_of_nil in Hd.
      * apply waiting_no_coordinator.
    + destruct (runWorker_cases w f Harg)
        as [(mf & rf & _ & Hq)|[(err & _ & Hq)|(r & _ & Hq)]]; rewrite Hq; simpl.
      * intros [?|?%elem_of_nil]%elem_of_cons; done.
      * by intros ?%elem_of_nil.
      * by intros ?%elem_of_nil.
    + by intros ?%elem_of_nil.
Qed.

Lemma unguarded_modes_panic_witness :
  (events (runCoordinator (world ["mr_main"]) 3) = []
   ∧ ∃ reason, outcome (runCoordinator (world ["mr_main"]) 3) = Panics reason)
  ∧ (events (runWorker (world ["mr_main"; "mrworker"])) = []
     ∧ ∃ reason, outcome (runWorker (world ["mr_main"; "mrworker"])) = Panics reason).
Proof.
  split.
  - apply (proj1 (unguarded_modes_panic (world ["mr_main"]) 3)). simpl. lia.
  - apply (proj1 (proj2 (proj2 (unguarded_modes_panic (world ["mr_main"; "mrworker"]) 0)))).
    simpl. lia.
Defined.
End ArgumentGuard.

Section ProcessEnd.
Import Main.

Lemma coordinator_events_not_others tr e :
  Forall (λ e, coordinator_event e = true) tr → e ∈ tr → coordinator_event e = true.
Proof. rewrite Forall_forall. auto. Qed.

(** The calls [main] makes are those of [run], and [log.Fatal] when [run]
    returned an error. *)
Lemma main_events w fuel :
  events (main w fuel) =
    events (run w fuel)
      ++ match outcome (run w fuel) with
         | Returns (Some e) => [Fatal_call (Error e)]
         | _ => []
         end.
Proof.
  unfold events at 1. rewrite main_exec.
  destruct (outcome (run w fuel)) as [[e|]| | |]; simpl; by rewrite ?app_nil_r.
Qed.



(** X5: [main] calls [log.Fatal] exactly when [run] returns an error, and
    with that error's message. It is then called once, no coordinator has
    been constructed, [Done()] has not been polled, nothing has slept and
    no worker has been started, and the process exits with status 1. The
    message is the usage message for too few arguments, the invalid-mode
    message for an unknown mode, and the message of the error of
    [loadPlugin] in worker mode; in coordinator mode [main] never calls
    [log.Fatal]. *)
Theorem main_fatal_messages w fuel msg :
  (Fatal_call msg ∈ events (main w fuel) ↔
   ∃ e, outcome (run w fuel) = Returns (Some e) ∧ msg = Error e)
  ∧ (Fatal_call msg ∈ events (main w fuel) →
     exec (main w fuel) = ([Fatal_call msg], Exits 1)
     ∧ (∃ e, outcome (run w fuel) = Returns (Some e) ∧ msg = Error e)
     ∧ ((too_few w ∧ msg = usage)
        ∨ (¬ too_few w
           ∧ ∃ mode, os_Args w !! 1%nat = Some mode
                     ∧ mode ≠ coordinatorArg ∧ mode ≠ workerArg
                     ∧ msg = invalid_mode_message mode)
        ∨ (¬ too_few w ∧ os_Args w !! 1%nat = Some workerArg
           ∧ ∃ filename e, os_Args w !! 2%nat = Some filename
               ∧ outcome (loadPlugin w filename) = Returns (None, None, Some e)
               ∧ msg = Error e))).
Proof.
  assert (Hback : (∃ e, outcome (run w fuel) = Returns (Some e) ∧ msg = Error e) →
                  Fatal_call msg ∈ events (main w fuel)).
  { intros (e & He & ->). rewrite main_events, He. apply elem_of_app. right.
    apply elem_of_cons. by left. }
  cut (Fatal_call msg ∈ events (main w fuel) →
       exec (main w fuel) = ([Fatal_call msg], Exits 1)
       ∧ (∃ e, outcome (run w fuel) = Returns (Some e) ∧ msg = Error e)
       ∧ ((too_few w ∧ msg = usage)
          ∨ (¬ too_few w
             ∧ ∃ mode, os_Args w !! 1%nat = Some mode
                       ∧ mode ≠ coordinatorArg ∧ mode ≠ workerArg
                       ∧ msg = invalid_mode_message mode)
          ∨ (¬ too_few w ∧ os_Args w !! 1%nat = Some workerArg
             ∧ ∃ filename e, os_Args w !! 2%nat = Some filename
                 ∧ outcome (loadPlugin w filename) = Returns (None, None, Some e)
                 ∧ msg = Error e))).
  { intros Hall. split; [|exact Hall]. split; [|exact Hback].
    intros Hin. by destruct (Hall Hin) as (_ & ? & _). }
  clear Hback.
  unfold events at 1. rewrite main_exec. unfold outcome, events.
  destruct (run_cases w fuel)
    as [[Hfew Hp]|[(Hfew & Hmode & Hp & Hno)|[(Hfew & Hmode & Hp & f & Harg)
       |(Hfew & mode & Hmode & Hc & Hw & Hp)]]]; rewrite Hp; simpl.
  - intros [[= ->]|?%elem_of_nil]%elem_of_cons; [|done].
    split_and!; [done|by eexists|by left].
  - assert (Hlen : (2 ≤ length (os_Args w))%nat) by (rewrite too_few_length in Hfew; lia).
    pose proof (runCoordinator_events_kind w fuel Hlen) as Hkind. unfold events in Hkind.
    intros Hin. exfalso.
    assert (Hin' : Fatal_call msg ∈ (exec (runCoordinator w fuel)).1).
    { unfold outcome in Hno.
      destruct (exec (runCoordinator w fuel)) as [tr [[e|]| | |]]; simpl in *; try done.
      by destruct (Hno e). }
    by pose proof (coordinator_events_not_others _ _ Hkind Hin').
  - destruct (runWorker_cases w f Harg)
      as [(mf & rf & Hl & Hq)|[(err & Hl & Hq)|(r & _ & Hq)]]; rewrite Hq; simpl.
    + intros Hin. exfalso.
      destruct (Worker_ends w (Some mf) (Some rf)); simpl in Hin;
        apply elem_of_cons in Hin as [?|?%elem_of_nil]; done.
    + intros [[= ->]|?%elem_of_nil]%elem_of_cons; [|done].
      split_and!; [done|by eexists|]. right; right. split_and!; [done..|].
      exists f, err. split_and!; [done| |done]. unfold outcome, exec. by rewrite Hl.
    + by intros ?%elem_of_nil.
  - intros [[= ->]|?%elem_of_nil]%elem_of_cons; [|done].
    split_and!; [done|by eexists|]. right; left. split; [done|]. by exists mode.
Qed.

Lemma main_fatal_messages_witness :
  ∃ e0,
    plugin_Open (world ["mr_main"; "mrworker"; "missing.so"]) "missing.so" = inr e0
    ∧ exec (main (world ["mr_main"; "mrworker"; "missing.so"]) 0)
      = ([Fatal_call ("cannot load plugin missing.so: " +:+ Error e0)], Exits 1).
Proof.
  eexists. split; [reflexivity|].
  refine (proj1 (proj2 (main_fatal_messages
                          (world ["mr_main"; "mrworker"; "missing.so"]) 0 _) _)).
  apply elem_of_cons. by left.
Defined.
End ProcessEnd.

Section PollingTime.
Import Main.

Lemma reports_app tr1 tr2 : reports (tr1 ++ tr2) = reports tr1 ++ reports tr2.
Proof. unfold reports. apply omap_app. Qed.

Lemma slept_app tr1 tr2 : slept (tr1 ++ tr2) = slept tr1 + slept tr2.
Proof.
  induction tr1 as [|e tr1 IH]; [done|]. simpl in *. destruct e; rewrite ?IH; lia.
Qed.

Lemma reports_waiting n : reports (waiting n) = replicate n false.
Proof. induction n as [|n IH]; [done|]. simpl. unfold reports in *. simpl. by rewrite IH. Qed.

Lemma slept_waiting n : slept (waiting n) = Z.of_nat n * sleepDuration.
Proof. induction n as [|n IH]; [done|]. simpl in *. rewrite IH. lia. Qed.

(** X6: the coordinator polls [Done()] at intervals of one second and
    sleeps one more second once it is done. When [run] returns in
    coordinator mode, every report of [Done()] but the last was false and
    the last was true, no call of [Done()] follows it, and the time slept
    is one second for each call of [Done()], so at least one second; while
    it is still polling after [fuel] rounds, all [fuel] reports were false
    and it has slept [fuel] seconds. *)
Theorem coordinator_polls_every_second w fuel :
  ¬ too_few w → os_Args w !! 1%nat = Some coordinatorArg →
  sleepDuration = 1000000000
  ∧ slept (events (run w fuel)) =
      Z.of_nat (length (reports (events (run w fuel)))) * sleepDuration
  ∧ (∀ r, outcome (run w fuel) = Returns r →
       ∃ n, reports (events (run w fuel)) = replicate n false ++ [true]
            ∧ slept (events (run w fuel)) = (Z.of_nat n + 1) * sleepDuration
            ∧ sleepDuration ≤ slept (events (run w fuel)))
  ∧ (outcome (run w fuel) = Running →
       reports (events (run w fuel)) = replicate fuel false
       ∧ slept (events (run w fuel)) = Z.of_nat fuel * sleepDuration).
Proof.
  intros Hfew Hmode.
  assert (Hlen : (2 ≤ length (os_Args w))%nat) by (rewrite too_few_length in Hfew; lia).
  unfold outcome, events. rewrite (exec_run_coordinator_mode w fuel Hfew Hmode).
  destruct (runCoordinator_cases w fuel Hlen) as [(n & _ & _ & _ & Hp)|[_ Hp]];
    rewrite Hp; cbn [fst snd].
  - assert (Hrep : reports (MakeCoordinator_call (drop 2 (os_Args w)) 10
                            :: waiting n ++ [Done_call true; Sleep_call sleepDuration])
                   = replicate n false ++ [true]).
    { change (reports (?e :: ?tr)) with (reports tr).
      by rewrite reports_app, reports_waiting. }
    assert (Hsl : slept (MakeCoordinator_call (drop 2 (os_Args w)) 10
                           :: waiting n ++ [Done_call true; Sleep_call sleepDuration])
                  = (Z.of_nat n + 1) * sleepDuration).
    { change (slept (?e :: ?tr)) with (slept tr).
      rewrite slept_app, slept_waiting. simpl. lia. }
    rewrite Hrep, Hsl. split_and!; [done| | |done].
    + rewrite length_app, length_replicate. simpl. lia.
    + intros _ _. exists n. split_and!; [done..|]. unfold sleepDuration. lia.
  - assert (Hrep : reports (MakeCoordinator_call (drop 2 (os_Args w)) 10 :: waiting fuel)
                   = replicate fuel false).
    { change (reports (?e :: ?tr)) with (reports tr). apply reports_waiting. }
    assert (Hsl : slept (MakeCoordinator_call (drop 2 (os_Args w)) 10 :: waiting fuel)
                  = Z.of_nat fuel * sleepDuration).
    { change (slept (?e :: ?tr)) with (slept tr). apply slept_waiting. }
    rewrite Hrep, Hsl. split_and!; [done| |done|done].
    by rewrite length_replicate.
Qed.

Lemma coordinator_polls_every_second_witness :
  slept (events (run (world ["mr_main"; "mrcoordinator"; "pg-1.txt"]) 5)) = 3000000000
  ∧ reports (events (run (world ["mr_main"; "mrcoordinator"; "pg-1.txt"]) 5))
    = [false; false; true].
Proof.
  assert (Hfew : ¬ too_few (world ["mr_main"; "mrcoordinator"; "pg-1.txt"]))
    by (unfold too_few; vm_compute; discriminate).
  destruct (coordinator_polls_every_second
              (world ["mr_main"; "mrcoordinator"; "pg-1.txt"]) 5 Hfew eq_refl)
    as (_ & Hsl & _ & _).
  split; [exact Hsl|reflexivity].
Defined.

End PollingTime.

Section Frames.
Import Main.

Lemma poll_ext w w' fuel m st :
  (∀ k, Done_reports w k = Done_reports w' k) → poll w fuel m st = poll w' fuel m st.
Proof.
  intros Hsame. revert st. induction fuel as [|fuel IH]; intros st; [done|].
  simpl. unfold mbind, Go_bind, Done. rewrite Hsame.
  destruct (Done_reports w' (polls st)); [done|]. simpl. apply IH.
Qed.

Lemma runCoordinator_ext w w' fuel st :
  os_Args w = os_Args w' → (∀ k, Done_reports w k = Done_reports w' k) →
  runCoordinator w fuel st = runCoordinator w' fuel st.
Proof.
  intros Hargs Hsame. unfold runCoordinator, mbind, Go_bind. rewrite Hargs.
  destruct (slice_from (os_Args w') 2 st) as [st1 [files| | |]]; try done.
  destruct (MakeCoordinator files 10 st1) as [st2 [m| | |]]; try done.
  by rewrite (poll_ext w w' fuel m st2 Hsame).
Qed.

Lemma runWorker_ext w w' filename st :
  os_Args w !! 2%nat = Some filename → os_Args w' !! 2%nat = Some filename →
  plugin_Open w filename = plugin_Open w' filename →
  (∀ mapf reducef, Worker_ends w mapf reducef = Worker_ends w' mapf reducef) →
  runWorker w st = runWorker w' st.
Proof.
  intros Harg Harg' Hopen Hends. unfold runWorker, index. rewrite Harg, Harg'.
  unfold mbind, Go_bind, mret, Go_ret.
  assert (Hload : loadPlugin w filename st = loadPlugin w' filename st)
    by (unfold loadPlugin; by rewrite Hopen).
  rewrite Hload.
  destruct (loadPlugin w' filename st) as [st1 [[[mapf reducef] [e|]]| | |]]; try done.
  unfold Worker. by rewrite Hends.
Qed.

(** X7: each mode reads its own part of the world only. In coordinator
    mode the whole run of [main] is fixed by the command line and by what
    [Done()] reports: no plugin file is read and [mr.Worker] plays no part.
    In worker mode it is fixed by the first three arguments, the plugin
    file the third one names and how [mr.Worker] ends: further arguments,
    the reports of [Done()] and the number of rounds observed play no
    part. *)
Theorem modes_read_their_own_part :
  (∀ w w' fuel,
     os_Args w = os_Args w' → (∀ k, Done_reports w k = Done_reports w' k) →
     ¬ too_few w → os_Args w !! 1%nat = Some coordinatorArg →
     exec (main w fuel) = exec (main w' fuel))
  ∧ (∀ w w' fuel fuel' filename,
       take 3 (os_Args w) = take 3 (os_Args w') →
       ¬ too_few w → ¬ too_few w' →
       os_Args w !! 1%nat = Some workerArg → os_Args w !! 2%nat = Some filename →
       plugin_Open w filename = plugin_Open w' filename →
       (∀ mapf reducef, Worker_ends w mapf reducef = Worker_ends w' mapf reducef) →
       exec (main w fuel) = exec (main w' fuel')).
Proof.
  split.
  - intros w w' fuel Hargs Hsame Hfew Hmode.
    assert (Hfew' : ¬ too_few w') by (unfold too_few in *; by rewrite <- Hargs).
    assert (Hmode' : os_Args w' !! 1%nat = Some coordinatorArg) by (by rewrite <- Hargs).
    assert (Hrun : exec (run w fuel) = exec (run w' fuel)).
    { rewrite !exec_run_coordinator_mode by done. unfold exec.
      by rewrite (runCoordinator_ext w w' fuel st0 Hargs Hsame). }
    rewrite !main_exec. unfold outcome, events. by rewrite Hrun.
  - intros w w' fuel fuel' filename Htake Hfew Hfew' Hmode Harg Hopen Hends.
    assert (Hlook : ∀ i, (i < 3)%nat → os_Args w' !! i = os_Args w !! i).
    { intros i Hi. rewrite <- (lookup_take_lt (os_Args w') 3 i Hi), <- Htake.
      by apply lookup_take_lt. }
    assert (Hrun : exec (run w fuel) = exec (run w' fuel')).
    { rewrite !exec_run_worker_mode; [|done|by rewrite Hlook by lia|done|done].
      unfold exec. rewrite (runWorker_ext w w' filename st0); [done|done| |done|done].
      by rewrite Hlook by lia. }
    rewrite !main_exec. unfold outcome, events. by rewrite Hrun.
Qed.

Lemma modes_read_their_own_part_witness :
  exec (main (world ["mr_main"; "mrcoordinator"; "pg-1.txt"]) 5)
    = exec (main (bare_world ["mr_main"; "mrcoordinator"; "pg-1.txt"]) 5)
  ∧ exec (main (world ["mr_main"; "mrworker"; "wordcount.so"]) 0)
    = exec (main (stalled_world ["mr_main"; "mrworker"; "wordcount.so"; "pg-1.txt"]) 7).
Proof.
  assert (Hfew : ∀ mode file rest P D W, ¬ too_few
            {| os_Args := "mr_main" :: mode :: file :: rest;
               plugin_Open := P; Done_reports := D; Worker_ends := W |}).
  { intros. unfold too_few, len, minArgs. simpl. lia. }
  split.
  - apply (proj1 modes_read_their_own_part); [done|done|apply Hfew|done].
  - apply (proj2 modes_read_their_own_part _ _ 0%nat 7%nat "wordcount.so");
      [done|apply Hfew|apply Hfew|done|done|done|done].
Defined.
End Frames.

Section Success.
Import Main.

(** X9: the process ends normally, [main] returning, in two cases only:
    as a coordinator, when [Done()] has reported true within the rounds
    observed; as a worker, when the plugin file opens and exports [Map] and
    [Reduce] with their function types and [mr.Worker], called with them,
    returns. *)
Theorem main_returns_iff w fuel :
  outcome (main w fuel) = Returns tt ↔
    ¬ too_few w
    ∧ ((os_Args w !! 1%nat = Some coordinatorArg
        ∧ ∃ n, (n < fuel)%nat ∧ Done_reports w n = true)
       ∨ (os_Args w !! 1%nat = Some workerArg
          ∧ ∃ filename p mf rf,
              os_Args w !! 2%nat = Some filename
              ∧ plugin_Open w filename = inl p
              ∧ Lookup p "Map" = inl (MapFunc mf)
              ∧ Lookup p "Reduce" = inl (ReduceFunc rf)
              ∧ Worker_ends w (Some mf) (Some rf) = Returns tt)).
Proof.
  unfold outcome at 1. rewrite main_exec. unfold outcome, events.
  destruct (run_cases w fuel)
    as [[Hfew Hp]|[(Hfew & Hmode & Hp & Hno)|[(Hfew & Hmode & Hp & f & Harg)
       |(Hfew & mode & Hmode & Hc & Hw & Hp)]]]; rewrite Hp; cbn [fst snd].
  - split; [done|]. by intros [? _].
  - assert (Hlen : (2 ≤ length (os_Args w))%nat) by (rewrite too_few_length in Hfew; lia).
    destruct (runCoordinator_cases w fuel Hlen) as [(n & Hn & Ht & _ & Hq)|[Hf Hq]];
      rewrite Hq; cbn [fst snd].
    + split; [|done]. intros _. split; [done|]. left. split; [done|]. by exists n.
    + split; [done|]. intros [_ [[_ (n & Hn & Ht)]|[Hm _]]].
      * rewrite Hf in Ht by done. done.
      * rewrite Hmode in Hm. done.
  - destruct (runWorker_cases w f Harg)
      as [(mf & rf & Hl & Hq)|[(err & Hl & Hq)|(r & Hl & Hq)]]; rewrite Hq; cbn [fst snd].
    + apply loadPlugin_Returns_inv in Hl
        as [_ [(p & mf' & rf' & H & HM & HR & [= <-] & [= <-] & _)|[Hx|[Hx|Hx]]]].
      2:{ by destruct Hx as (? & _ & ? & _). }
      2:{ by destruct Hx as (? & ? & _ & _ & ? & _). }
      2:{ by destruct Hx as (? & ? & ? & _ & _ & _ & ? & _). }
      split.
      * intros Hret. split; [done|]. right. split; [done|]. exists f, p, mf, rf.
        split_and!; [done..|].
        by destruct (Worker_ends w (Some mf) (Some rf)) as [[]| | |].
      * intros [_ [[Hm _]|[_ (f' & p' & mf' & rf' & Harg' & H' & HM' & HR' & Hends)]]].
        { rewrite Hmode in Hm. done. }
        rewrite Harg in Harg'. injection Harg' as <-.
        rewrite H in H'. injection H' as <-.
        rewrite HM in HM'. injection HM' as <-.
        rewrite HR in HR'. injection HR' as <-.
        by rewrite Hends.
    + split; [done|].
      intros [_ [[Hm _]|[_ (f' & p' & mf' & rf' & Harg' & H' & HM' & HR' & Hends)]]].
      { rewrite Hmode in Hm. done. }
      rewrite Harg in Harg'. injection Harg' as <-.
      by rewrite (loadPlugin_both _ _ _ _ _ _ H' HM' HR') in Hl.
    + split; [done|].
      intros [_ [[Hm _]|[_ (f' & p' & mf' & rf' & Harg' & H' & HM' & HR' & Hends)]]].
      { rewrite Hmode in Hm. done. }
      rewrite Harg in Harg'. injection Harg' as <-.
      by rewrite (loadPlugin_both _ _ _ _ _ _ H' HM' HR') in Hl.
  - split; [done|]. intros [_ [[Hm _]|[Hm _]]]; rewrite Hmode in Hm; by simplify_eq.
Qed.

Lemma main_returns_iff_witness :
  outcome (main (bare_world ["mr_main"; "mrcoordinator"; "pg-1.txt"]) 3) = Returns tt.
Proof.
  apply (proj2 (main_returns_iff (bare_world ["mr_main"; "mrcoordinator"; "pg-1.txt"]) 3)).
  split; [unfold too_few, len, minArgs; simpl; lia|].
  left. split; [reflexivity|]. exists 2%nat. split; [lia|reflexivity].
Defined.
End Success.

(** * The wire protocol: facts about the protocol buffer file *)

Section WireProtocol.
Import Proto.

(** C5: the service declares exactly three operations, none of them
    streaming, under distinct names, over messages with distinct names:
    Map takes a file path string and a map-function name string and
    returns a list of (key, value) string pairs; Reduce takes a list of
    (key, value) string pairs and a reduce-function name string and returns
    one string, the final result; Ping takes no payload and returns one
    string, the status. *)
Theorem wire_protocol_three_operations :
  operations messages MapReduceService =
    Some [ ("Map",
            Fields [("file_path", Str); ("map_function", Str)],
            Fields [("intermediate_results", pairs_shape)]);
           ("Reduce",
            Fields [("intermediate_results", pairs_shape); ("reduce_function", Str)],
            Fields [("final_result", Str)]);
           ("Ping", Fields [], Fields [("status", Str)]) ]
  ∧ length (rpcs MapReduceService) = 3%nat
  ∧ NoDup (rname <$> rpcs MapReduceService)
  ∧ NoDup (mname <$> messages)
  ∧ Forall (λ r, request_stream r = false ∧ response_stream r = false)
           (rpcs MapReduceService).
Proof.
  split_and!.
  - reflexivity.
  - reflexivity.
  - apply (bool_decide_unpack _). by vm_compute.
  - apply (bool_decide_unpack _). by vm_compute.
  - repeat constructor.
Qed.
End WireProtocol.

(** * The coordinator core: facts about the model *)

Section RegistryFacts.
Import MR.
#[local] Open Scope nat_scope.

(** ** The Task Registry *)

Lemma tasksOf_setTask_same reg k i t :
  tasksOf k (setTask reg (k, i) t) = <[i := t]> (tasksOf k reg).
Proof. by destruct k. Qed.

Lemma tasksOf_setTask_other reg k k' i t :
  k ≠ k' → tasksOf k' (setTask reg (k, i) t) = tasksOf k' reg.
Proof. by destruct k, k'. Qed.

Lemma getTask_setTask_same reg id t t0 :
  getTask reg id = Some t0 → getTask (setTask reg id t) id = Some t.
Proof.
  destruct id as [k i]. unfold getTask. simpl. intros H.
  rewrite tasksOf_setTask_same. apply list_lookup_insert_eq. by eapply lookup_lt_Some.
Qed.

Lemma getTask_setTask_other reg id id' t :
  id ≠ id' → getTask (setTask reg id t) id' = getTask reg id'.
Proof.
  destruct id as [k i], id' as [k' i']. unfold getTask. simpl. intros Hne.
  destruct (decide (k = k')) as [->|Hk].
  - rewrite tasksOf_setTask_same. apply list_lookup_insert_ne. congruence.
  - by rewrite tasksOf_setTask_other.
Qed.

(** [markCompleted] records a result for a Dispatched task only. *)
Lemma markCompleted_true id res reg reg1 :
  markCompleted id res reg = (reg1, true) →
  ∃ t, getTask reg id = Some t ∧ status t = Dispatched
       ∧ reg1 = setTask reg id (completedWith t res).
Proof.
  unfold markCompleted. destruct (getTask reg id) as [t|] eqn:Ht; [|done].
  destruct (status t) eqn:Hs; intros [= <-]. by exists t.
Qed.

Lemma markCompleted_false id res reg reg1 :
  markCompleted id res reg = (reg1, false) → reg1 = reg.
Proof.
  unfold markCompleted. destruct (getTask reg id) as [t|] eqn:Ht; [|congruence].
  destruct (status t); congruence.
Qed.

Lemma markCompleted_Completed id res reg t :
  getTask reg id = Some t → status t = Completed →
  markCompleted id res reg = (reg, false).
Proof. intros Ht Hs. unfold markCompleted. by rewrite Ht, Hs. Qed.

(** [markTimedOut] changes a task only when it is Dispatched for the
    deadline that expired. *)
Lemma markTimedOut_changes id d reg :
  markTimedOut id d reg = reg
  ∨ ∃ t, getTask reg id = Some t ∧ status t = Dispatched ∧ deadline t = Some d
         ∧ markTimedOut id d reg = setTask reg id (backToPending t).
Proof.
  unfold markTimedOut. destruct (getTask reg id) as [t|] eqn:Ht; [|by left].
  case_bool_decide as H; [|by left]. right. exists t. by destruct H.
Qed.

Lemma markDispatched_inl id w d reg reg' :
  markDispatched id w d reg = inl reg' →
  ∃ t, getTask reg id = Some t ∧ status t = Pending
       ∧ reg' = setTask reg id (dispatchedTo t w d).
Proof.
  unfold markDispatched. destruct (getTask reg id) as [t|] eqn:Ht; [|done].
  destruct (status t) eqn:Hs; intros [= <-]. by exists t.
Qed.

(** A task that is not Dispatched is left alone by [markTimedOut]. *)
Lemma markTimedOut_keeps id d reg id' t :
  getTask reg id' = Some t → status t ≠ Dispatched →
  getTask (markTimedOut id d reg) id' = Some t.
Proof.
  intros Ht Hs. destruct (markTimedOut_changes id d reg) as [->|(t0 & Ht0 & Hs0 & _ & ->)];
    [done|].
  rewrite getTask_setTask_other; [done|]. intros <-. congruence.
Qed.

Lemma allCompleted_lookup ts i t :
  allCompleted ts = true → ts !! i = Some t → status t = Completed.
Proof.
  unfold allCompleted. rewrite forallb_forall. intros Hall Hi.
  assert (Hin : In t ts) by (apply list_elem_of_In; by eapply list_elem_of_lookup_2).
  specialize (Hall t Hin). unfold isCompleted in Hall. by apply bool_decide_eq_true in Hall.
Qed.

Lemma allCompleted_insert ts i t :
  allCompleted ts = true → status t = Completed → allCompleted (<[i := t]> ts) = true.
Proof.
  unfold allCompleted. rewrite !forallb_forall. intros Hall Hs x Hin.
  apply list_elem_of_In, list_elem_of_lookup in Hin as [j Hj].
  destruct (decide (i = j)) as [->|Hne].
  - destruct (decide (j < length ts)) as [Hlt|Hge].
    + rewrite list_lookup_insert_eq in Hj by done. simplify_eq.
      unfold isCompleted. by apply bool_decide_eq_true.
    + rewrite list_insert_ge in Hj by lia. apply Hall, list_elem_of_In.
      by eapply list_elem_of_lookup_2.
  - rewrite list_lookup_insert_ne in Hj by done. apply Hall, list_elem_of_In.
    by eapply list_elem_of_lookup_2.
Qed.
End RegistryFacts.

Section CoordinatorFacts.
Import MR.
#[local] Open Scope nat_scope.
Variable hash : string → nat.

(** ** What one event does to the coordinator *)

Lemma dispatchNext_inl k now choice s s' :
  dispatchNext k now choice s = inl s' →
  s' = s
  ∨ ∃ i w t, getTask (registry s) (k, i) = Some t ∧ status t = Pending
             ∧ w ∈ freeAlive (registry s) (endpoints s)
             ∧ s' = {| job := job s; phase := phase s;
                       registry := setTask (registry s) (k, i) (dispatchedTo t w (now + T));
                       endpoints := endpoints s; assembler := assembler s |}.
Proof.
  unfold dispatchNext. destruct (allPending k (registry s)) as [|t0 rest]; [intros [= <-]; by left|].
  destruct (freeAlive (registry s) (endpoints s) !! _) as [w|] eqn:Hw; [|intros [= <-]; by left].
  destruct (markDispatched _ w _ _) as [reg|] eqn:Hm; [|done]. intros [= <-].
  apply markDispatched_inl in Hm as (t & Ht & Hs & ->).
  right. exists (ident t0), w, t. split_and!; [done|done| |done].
  by eapply list_elem_of_lookup_2.
Qed.

Lemma onMapResponse_cases i records s :
  onMapResponse hash i records s = s
  ∨ ∃ t, getTask (registry s) (MapTask, i) = Some t ∧ status t = Dispatched
         ∧ ((phase s = Mapping
             ∧ allCompleted (<[i := completedWith t (MapOutput records)]> (mapTasks (registry s))) = true
             ∧ onMapResponse hash i records s =
                 {| job := job s; phase := Reducing;
                    registry :=
                      {| mapTasks := <[i := completedWith t (MapOutput records)]> (mapTasks (registry s));
                         reduceTasks := materialize
                           (partitionForReduce hash (R (job s))
                              (onMapCompleted records (assembler s))).2 |};
                    endpoints := endpoints s;
                    assembler := (partitionForReduce hash (R (job s))
                                    (onMapCompleted records (assembler s))).1 |})
            ∨ (¬ (phase s = Mapping
                  ∧ allCompleted (<[i := completedWith t (MapOutput records)]> (mapTasks (registry s))) = true)
               ∧ onMapResponse hash i records s =
                   {| job := job s; phase := phase s;
                      registry := setTask (registry s) (MapTask, i)
                                    (completedWith t (MapOutput records));
                      endpoints := endpoints s;
                      assembler := onMapCompleted records (assembler s) |})).
Proof.
  unfold onMapResponse.
  destruct (markCompleted _ _ _) as [reg [|]] eqn:Hm; [|by left].
  apply markCompleted_true in Hm as (t & Ht & Hs & ->). right. exists t.
  split_and!; [done..|]. simpl.
  destruct (bool_decide (phase s = Mapping)) eqn:Hp; simpl.
  - apply bool_decide_eq_true in Hp.
    destruct (allCompleted _) eqn:Hall.
    + left. split_and!; [done..|]. by destruct (partitionForReduce _ _ _).
    + right. split; [|done]. intros [_ ?]. congruence.
  - apply bool_decide_eq_false in Hp. right. split; [|done]. by intros [? _].
Qed.

Lemma onReduceResponse_cases p value s :
  onReduceResponse p value s = s
  ∨ ∃ t, getTask (registry s) (ReduceTask, p) = Some t ∧ status t = Dispatched
         ∧ onReduceResponse p value s =
             {| job := job s;
                phase := if bool_decide (phase s = Reducing)
                            && allCompleted (<[p := completedWith t (ReduceOutput value)]>
                                               (reduceTasks (registry s)))
                         then Done else phase s;
                registry := setTask (registry s) (ReduceTask, p)
                              (completedWith t (ReduceOutput value));
                endpoints := endpoints s;
                assembler := onReduceCompleted p value (assembler s) |}.
Proof.
  unfold onReduceResponse.
  destruct (markCompleted _ _ _) as [reg [|]] eqn:Hm; [|by left].
  apply markCompleted_true in Hm as (t & Ht & Hs & ->). right. by exists t.
Qed.

(** ** The phase invariant *)

Lemma phaseInvariant_start j eps : phaseInvariant (start j eps).
Proof. by split_and!. Qed.

Lemma phaseInvariant_handle s e s' :
  phaseInvariant s → handle hash s e = inl s' → phaseInvariant s'.
Proof.
  intros Hinv He. pose proof Hinv as (I1 & I2 & I3).
  destruct e as [now choice|i records|p value|id d|addr ok now]; simpl in He.
  - (* a scheduling pass *)
    destruct (phase s) eqn:Hph.
    + apply dispatchNext_inl in He as [->|(i & w & t & Ht & Hs & _ & ->)]; [done|].
      unfold phaseInvariant. simpl. rewrite Hph. split_and!; [by auto|done|done].
    + apply dispatchNext_inl in He as [->|(i & w & t & Ht & Hs & _ & ->)]; [done|].
      unfold phaseInvariant. simpl. rewrite Hph. split_and!; [done|by auto|done].
    + by injection He as <-.
  - (* a Map response *)
    injection He as <-.
    destruct (onMapResponse_cases i records s)
      as [->|(t & Ht & Hs & [(Hph & Hall & ->)|(Hno & ->)])]; [done| |].
    + unfold phaseInvariant. simpl. by split_and!.
    + unfold phaseInvariant. simpl. split_and!; [by auto| |by auto].
      intros Hph. apply allCompleted_insert; [by auto|done].
  - (* a Reduce response *)
    injection He as <-.
    destruct (onReduceResponse_cases p value s) as [->|(t & Ht & Hs & ->)]; [done|].
    unfold getTask in Ht. simpl in Ht.
    unfold phaseInvariant. simpl. split_and!.
    + intros Hph. destruct (phase s) eqn:Hph'.
      * rewrite I1 in Ht by done. done.
      * by destruct (_ && _).
      * done.
    + intros Hph. apply I2. intros Hm. rewrite Hm in Hph. simpl in Hph. done.
    + destruct (bool_decide (phase s = Reducing)) eqn:Hr; simpl.
      * destruct (allCompleted (<[p:=_]> _)) eqn:Hall; [done|].
        apply bool_decide_eq_true in Hr. congruence.
      * intros Hph. apply allCompleted_insert; [by auto|done].
  - (* a deadline *)
    injection He as <-.
    destruct (markTimedOut_changes id d (registry s)) as [Heq|(t & Ht & Hs & _ & Heq)];
      unfold phaseInvariant; simpl; rewrite Heq; [done|].
    destruct id as [[] i]; unfold getTask in Ht; simpl in *.
    + split_and!; [by auto| |by auto].
      intros Hph. specialize (I2 Hph).
      pose proof (allCompleted_lookup _ _ _ I2 Ht). congruence.
    + split_and!; [|by auto|].
      * intros Hph. rewrite (I1 Hph). done.
      * intros Hph. specialize (I3 Hph).
        pose proof (allCompleted_lookup _ _ _ I3 Ht). congruence.
  - by injection He as <-.
Qed.

Lemma phaseInvariant_handleAll s es s' :
  phaseInvariant s → handleAll hash s es = inl s' → phaseInvariant s'.
Proof.
  revert s. induction es as [|e es IH]; intros s Hinv H; simpl in H.
  - by injection H as <-.
  - destruct (handle hash s e) as [s1|] eqn:He; [|done].
    eapply IH; [|done]. by eapply phaseInvariant_handle.
Qed.

Lemma phaseInvariant_reachable j eps s : reachable hash j eps s → phaseInvariant s.
Proof. intros [es H]. eapply phaseInvariant_handleAll; [apply phaseInvariant_start|done]. Qed.

(** ** Identifiers *)

Lemma materialize_lookup parts p t :
  materialize parts !! p = Some t → status t = Pending ∧ ident t = p ∧ kind t = ReduceTask.
Proof.
  unfold materialize. rewrite list_lookup_imap.
  destruct (parts !! p); simpl; [|done]. by intros [= <-].
Qed.

Lemma identified_setTask reg id t0 t :
  identified reg → getTask reg id = Some t0 →
  ident t = ident t0 → kind t = kind t0 → identified (setTask reg id t).
Proof.
  intros Hid Ht0 Hi Hk k i x Hx. destruct id as [k0 i0].
  destruct (decide ((k0, i0) = (k, i))) as [[= -> ->]|Hne].
  - pose proof (getTask_setTask_same reg (k, i) t t0 Ht0) as Hget.
    unfold getTask in Hget, Ht0. simpl in *. rewrite Hx in Hget. injection Hget as ->.
    rewrite Hi, Hk. by apply Hid.
  - pose proof (getTask_setTask_other reg (k0, i0) (k, i) t Hne) as Hget.
    unfold getTask in Hget. simpl in Hget. rewrite Hx in Hget. by apply Hid.
Qed.

Lemma identified_start j eps : identified (registry (start j eps)).
Proof.
  intros [] i t; simpl; [|done]. rewrite list_lookup_imap.
  destruct (splits j !! i); simpl; [|done]. by intros [= <-].
Qed.

Lemma identified_handle s e s' :
  identified (registry s) → handle hash s e = inl s' → identified (registry s').
Proof.
  intros Hid He. destruct e as [now choice|i records|p value|id d|addr ok now]; simpl in He.
  - assert (Hd : ∀ k, dispatchNext k now choice s = inl s' → identified (registry s')).
    { intros k [->|(i & w & t & Ht & _ & _ & ->)]%dispatchNext_inl; [done|].
      by eapply identified_setTask. }
    destruct (phase s); [by eapply Hd..|]. by injection He as <-.
  - injection He as <-.
    destruct (onMapResponse_cases i records s)
      as [->|(t & Ht & Hs & [(Hph & Hall & ->)|(Hno & ->)])]; [done| |].
    + intros [] q x; simpl.
      * intros Hx.
        pose proof (identified_setTask _ _ _ (completedWith t (MapOutput records))
                      Hid Ht eq_refl eq_refl MapTask q x) as H.
        by apply H.
      * intros (_ & ? & ?)%materialize_lookup. done.
    + by eapply identified_setTask.
  - injection He as <-.
    destruct (onReduceResponse_cases p value s) as [->|(t & Ht & Hs & ->)]; [done|].
    by eapply identified_setTask.
  - injection He as <-. simpl.
    destruct (markTimedOut_changes id d (registry s)) as [->|(t & Ht & _ & _ & ->)]; [done|].
    by eapply identified_setTask.
  - by injection He as <-.
Qed.

Lemma identified_reachable j eps s : reachable hash j eps s → identified (registry s).
Proof.
  intros [es H]. revert H. generalize (identified_start j eps).
  generalize (start j eps). induction es as [|e es IH]; intros s0 Hid H; simpl in H.
  - by injection H as <-.
  - destruct (handle hash s0 e) as [s1|] eqn:He; [|done].
    eapply IH; [|done]. by eapply identified_handle.
Qed.

Lemma allPending_elem k reg t :
  t ∈ allPending k reg ↔ t ∈ tasksOf k reg ∧ status t = Pending.
Proof.
  unfold allPending. rewrite !list_elem_of_In, filter_In. unfold isPending.
  by rewrite bool_decide_eq_true.
Qed.

(** The Scheduler's pass on a registry whose tasks sit at their
    identifiers: the lowest Pending task goes to the endpoint selected among
    the free Alive ones, with the deadline [now + T]. *)
Lemma dispatchNext_assigns k now choice s t rest w :
  identified (registry s) →
  allPending k (registry s) = t :: rest →
  freeAlive (registry s) (endpoints s)
    !! (choice `mod` length (freeAlive (registry s) (endpoints s))) = Some w →
  dispatchNext k now choice s =
    inl {| job := job s; phase := phase s;
           registry := setTask (registry s) (k, ident t) (dispatchedTo t w (now + T));
           endpoints := endpoints s; assembler := assembler s |}.
Proof.
  intros Hid Hpend Hw. unfold dispatchNext. rewrite Hpend, Hw.
  assert (Hin : t ∈ allPending k (registry s)) by (rewrite Hpend; apply elem_of_cons; by left).
  apply allPending_elem in Hin as [[i Hi]%list_elem_of_lookup Hs].
  destruct (Hid k i t Hi) as [Hident _].
  unfold markDispatched, getTask. simpl. by rewrite Hident, Hi, Hs.
Qed.

(** On a registry whose tasks sit at their identifiers the Scheduler's
    pass never meets InvalidTransition, so every event is handled. *)
Lemma dispatchNext_total k now choice s :
  identified (registry s) → ∃ s', dispatchNext k now choice s = inl s'.
Proof.
  intros Hid. destruct (allPending k (registry s)) as [|t rest] eqn:Hpend.
  { exists s. unfold dispatchNext. by rewrite Hpend. }
  destruct (freeAlive (registry s) (endpoints s)
              !! (choice `mod` length (freeAlive (registry s) (endpoints s))))
    as [w|] eqn:Hw.
  - eexists. by eapply dispatchNext_assigns.
  - exists s. unfold dispatchNext. by rewrite Hpend, Hw.
Qed.

Lemma handle_total j eps s e :
  reachable hash j eps s → ∃ s', handle hash s e = inl s'.
Proof.
  intros Hid%identified_reachable.
  destruct e as [now choice|i records|p value|id d|addr ok now]; simpl; [|by eexists..].
  destruct (phase s); [by apply dispatchNext_total..|by eexists].
Qed.

Lemma handleAll_app s es1 es2 s1 :
  handleAll hash s es1 = inl s1 → handleAll hash s (es1 ++ es2) = handleAll hash s1 es2.
Proof.
  revert s. induction es1 as [|e es IH]; intros s H; simpl in *.
  - by injection H as <-.
  - destruct (handle hash s e) as [s'|]; [|done]. by apply IH.
Qed.

Lemma reachable_handle j eps s e s' :
  reachable hash j eps s → handle hash s e = inl s' → reachable hash j eps s'.
Proof.
  intros [es H] He. exists (es ++ [e]). rewrite (handleAll_app _ _ _ _ H). simpl. by rewrite He.
Qed.

Lemma handleAll_total j eps s es :
  reachable hash j eps s → ∃ s', handleAll hash s es = inl s'.
Proof.
  revert s. induction es as [|e es IH]; intros s Hreach; simpl; [by eexists|].
  destruct (handle_total j eps s e Hreach) as [s1 He]. rewrite He.
  apply IH. by eapply reachable_handle.
Qed.

End CoordinatorFacts.

Section Ordering.
Import MR.
#[local] Open Scope nat_scope.
Variable hash : string → nat.

(** One event and the phase: it stays, or it advances by one transition,
    Mapping to Reducing with every MapTask Completed or Reducing to Done
    with every ReduceTask Completed. *)
Lemma handle_phase s e s' :
  handle hash s e = inl s' →
  phase s' = phase s
  ∨ (phase s = Mapping ∧ phase s' = Reducing
     ∧ allCompleted (mapTasks (registry s')) = true)
  ∨ (phase s = Reducing ∧ phase s' = Done
     ∧ allCompleted (reduceTasks (registry s')) = true).
Proof.
  intros He. destruct e as [now choice|i records|p value|id d|addr ok now]; simpl in He.
  - destruct (phase s) eqn:Hph.
    + apply dispatchNext_inl in He as [->|(i & w & t & _ & _ & _ & ->)]; by left.
    + apply dispatchNext_inl in He as [->|(i & w & t & _ & _ & _ & ->)]; by left.
    + injection He as <-. by left.
  - injection He as <-.
    destruct (onMapResponse_cases hash i records s)
      as [->|(t & Ht & Hs & [(Hph & Hall & ->)|(Hno & ->)])]; [by left| |by left].
    right; left. by split_and!.
  - injection He as <-.
    destruct (onReduceResponse_cases p value s) as [->|(t & Ht & Hs & ->)]; [by left|].
    simpl. destruct (bool_decide (phase s = Reducing)) eqn:Hr; simpl; [|by left].
    apply bool_decide_eq_true in Hr.
    destruct (allCompleted (<[p:=_]> _)) eqn:Hall; [|by left].
    right; right. by split_and!.
  - injection He as <-. by left.
  - injection He as <-. by left.
Qed.

Lemma handle_phaseRank s e s' :
  handle hash s e = inl s' → phaseRank (phase s) ≤ phaseRank (phase s').
Proof.
  intros [->|[(-> & -> & _)|(-> & -> & _)]]%handle_phase; simpl; lia.
Qed.

Lemma handleAll_phaseRank s es s' :
  handleAll hash s es = inl s' → phaseRank (phase s) ≤ phaseRank (phase s').
Proof.
  revert s. induction es as [|e es IH]; intros s H; simpl in H.
  - by injection H as <-.
  - destruct (handle hash s e) as [s1|] eqn:He; [|done].
    apply handle_phaseRank in He. apply IH in H. lia.
Qed.

(** A ReduceTask that is not Pending after an event was there before it;
    and if it was Pending before, the event is a scheduling pass in the
    Reducing phase. *)
Lemma handle_reduce_not_pending s e s' p t' :
  handle hash s e = inl s' →
  reduceTasks (registry s') !! p = Some t' → status t' ≠ Pending →
  ∃ t, reduceTasks (registry s) !! p = Some t
       ∧ (status t = Pending → phase s = Reducing ∧ ∃ now choice, e = Pass now choice).
Proof.
  intros He Ht' Hs'.
  assert (Hsame : reduceTasks (registry s) !! p = Some t' →
            ∃ t, reduceTasks (registry s) !! p = Some t
                 ∧ (status t = Pending → phase s = Reducing ∧ ∃ now choice, e = Pass now choice))
    by (intros H; exists t'; by split).
  destruct e as [now choice|i records|q value|id d|addr ok now]; simpl in He.
  - destruct (phase s) eqn:Hph.
    + apply dispatchNext_inl in He as [->|(i & w & t & _ & _ & _ & ->)]; by apply Hsame.
    + apply dispatchNext_inl in He as [->|(i & w & t & Ht & Hs & _ & ->)]; [by apply Hsame|].
      simpl in Ht'. unfold getTask in Ht. simpl in Ht.
      destruct (decide (i = p)) as [->|Hne].
      * exists t. split; [done|]. intros _. split; [done|]. by eexists _, _.
      * rewrite list_lookup_insert_ne in Ht' by done. by apply Hsame.
    + injection He as <-. by apply Hsame.
  - injection He as <-.
    destruct (onMapResponse_cases hash i records s)
      as [Heq|(t & Ht & Hs & [(Hph & Hall & Heq)|(Hno & Heq)])];
      rewrite Heq in Ht'; simpl in Ht'; [by apply Hsame| |by apply Hsame].
    apply materialize_lookup in Ht' as [? _]. done.
  - injection He as <-.
    destruct (onReduceResponse_cases q value s) as [Heq|(t & Ht & Hs & Heq)];
      rewrite Heq in Ht'; simpl in Ht'; [by apply Hsame|].
    unfold getTask in Ht. simpl in Ht.
    destruct (decide (q = p)) as [->|Hne].
    + exists t. split; [done|]. congruence.
    + rewrite list_lookup_insert_ne in Ht' by done. by apply Hsame.
  - injection He as <-. simpl in Ht'.
    destruct (markTimedOut_changes id d (registry s)) as [Heq|(t & Ht & Hs & _ & Heq)];
      rewrite Heq in Ht'; [by apply Hsame|].
    destruct id as [[] i]; unfold getTask in Ht; simpl in *; [by apply Hsame|].
    destruct (decide (i = p)) as [->|Hne].
    + rewrite list_lookup_insert_eq in Ht' by (by eapply lookup_lt_Some).
      by injection Ht' as <-.
    + rewrite list_lookup_insert_ne in Ht' by done. by apply Hsame.
  - injection He as <-. by apply Hsame.
Qed.

(** C1: from the start of any job every event is handled, and across it:
    a ReduceTask is
    found out of Pending only when every MapTask was Completed before the
    event, and it leaves Pending only by a scheduling pass of the Reducing
    phase; the phase stays or advances by one of the two transitions,
    Mapping to Reducing with every MapTask Completed and Reducing to Done
    with every ReduceTask Completed; and over any further events the phase
    never goes back. *)
Theorem reduce_waits_for_map j eps s e :
  reachable hash j eps s →
  ∃ s', handle hash s e = inl s'
  ∧ (∀ p t', reduceTasks (registry s') !! p = Some t' → status t' ≠ Pending →
       allCompleted (mapTasks (registry s)) = true
       ∧ ∃ t, reduceTasks (registry s) !! p = Some t
              ∧ (status t = Pending →
                 phase s = Reducing ∧ ∃ now choice, e = Pass now choice))
  ∧ (phase s' = phase s
     ∨ (phase s = Mapping ∧ phase s' = Reducing
        ∧ allCompleted (mapTasks (registry s')) = true)
     ∨ (phase s = Reducing ∧ phase s' = Done
        ∧ allCompleted (reduceTasks (registry s')) = true))
  ∧ phaseInvariant s'
  ∧ (∀ es s'', handleAll hash s' es = inl s'' →
       phaseRank (phase s) ≤ phaseRank (phase s'')).
Proof.
  intros Hreach. pose proof (phaseInvariant_reachable hash _ _ _ Hreach) as Hinv.
  destruct (handle_total hash j eps s e Hreach) as [s' He]. exists s'.
  split_and!; [done| | | |].
  - intros p t' Ht' Hs'.
    destruct (handle_reduce_not_pending _ _ _ _ _ He Ht' Hs') as (t & Ht & Hpass).
    split; [|by exists t].
    destruct Hinv as (I1 & I2 & _). apply I2. intros Hph.
    rewrite (I1 Hph) in Ht. done.
  - by eapply handle_phase.
  - by eapply phaseInvariant_handle.
  - intros es s'' Hes. apply handle_phaseRank in He. apply handleAll_phaseRank in Hes. lia.
Qed.
End Ordering.

Section Results.
Import MR.
#[local] Open Scope nat_scope.
Variable hash : string → nat.

(** ** Completed tasks *)

Lemma handle_keeps_completed s e s' id t :
  phaseInvariant s → handle hash s e = inl s' →
  getTask (registry s) id = Some t → status t = Completed →
  getTask (registry s') id = Some t.
Proof.
  intros (I1 & _ & _) He Ht Hs.
  destruct e as [now choice|i records|p value|id0 d|addr ok now]; simpl in He.
  - assert (Hd : ∀ k, dispatchNext k now choice s = inl s' → getTask (registry s') id = Some t).
    { intros k [->|(i & w & t0 & Ht0 & Hs0 & _ & ->)]%dispatchNext_inl; [done|].
      simpl. rewrite getTask_setTask_other; [done|]. intros <-. congruence. }
    destruct (phase s); [by eapply Hd..|]. by injection He as <-.
  - injection He as <-.
    destruct (onMapResponse_cases hash i records s)
      as [->|(t0 & Ht0 & Hs0 & [(Hph & Hall & ->)|(Hno & ->)])]; [done| |].
    + destruct id as [[] q]; unfold getTask in *; simpl in *.
      * rewrite list_lookup_insert_ne; [done|]. intros <-. congruence.
      * rewrite (I1 Hph) in Ht. done.
    + simpl. rewrite getTask_setTask_other; [done|]. intros <-. congruence.
  - injection He as <-.
    destruct (onReduceResponse_cases p value s) as [->|(t0 & Ht0 & Hs0 & ->)]; [done|].
    simpl. rewrite getTask_setTask_other; [done|]. intros <-. congruence.
  - injection He as <-. simpl. apply markTimedOut_keeps; [done|congruence].
  - by injection He as <-.
Qed.

Lemma handleAll_keeps_completed s es s' id t :
  phaseInvariant s → handleAll hash s es = inl s' →
  getTask (registry s) id = Some t → status t = Completed →
  getTask (registry s') id = Some t.
Proof.
  revert s. induction es as [|e es IH]; intros s Hinv H Ht Hs; simpl in H.
  - by injection H as <-.
  - destruct (handle hash s e) as [s1|] eqn:He; [|done].
    eapply IH; [by eapply phaseInvariant_handle|done| |done].
    by eapply handle_keeps_completed.
Qed.

(** A response for a Completed task leaves the whole coordinator as it is. *)
Lemma late_MapResponse s i records t :
  getTask (registry s) (MapTask, i) = Some t → status t = Completed →
  handle hash s (MapResponse i records) = inl s.
Proof.
  intros Ht Hs. simpl. unfold onMapResponse.
  by rewrite (markCompleted_Completed _ _ _ _ Ht Hs).
Qed.

Lemma late_ReduceResponse s p value t :
  getTask (registry s) (ReduceTask, p) = Some t → status t = Completed →
  handle hash s (ReduceResponse p value) = inl s.
Proof.
  intros Ht Hs. simpl. unfold onReduceResponse.
  by rewrite (markCompleted_Completed _ _ _ _ Ht Hs).
Qed.

(** C2: once [markCompleted] has recorded a result for a task, the task is
    Completed with that result and a further [markCompleted] for the same
    identifier is a no-op; and from any state the coordinator reaches, a
    Completed task stays as it is across all later events (which are all
    handled), [markCompleted]
    for it stays a no-op, and a late response for it leaves the whole
    state, the final results included, unchanged. *)
Theorem completed_result_is_final :
  (∀ id res reg reg1,
      markCompleted id res reg = (reg1, true) →
      ∃ t, getTask reg1 id = Some t ∧ status t = Completed ∧ result t = Some res
           ∧ ∀ res', markCompleted id res' reg1 = (reg1, false))
  ∧ (∀ j eps s id t es,
       reachable hash j eps s →
       getTask (registry s) id = Some t → status t = Completed →
       ∃ s', handleAll hash s es = inl s'
       ∧ getTask (registry s') id = Some t
       ∧ (∀ res', markCompleted id res' (registry s') = (registry s', false))
       ∧ (∀ i records, id = (MapTask, i) →
            handle hash s' (MapResponse i records) = inl s')
       ∧ (∀ p value, id = (ReduceTask, p) →
            handle hash s' (ReduceResponse p value) = inl s')).
Proof.
  split.
  - intros id res reg reg1 (t & Ht & Hs & ->)%markCompleted_true.
    exists (completedWith t res).
    pose proof (getTask_setTask_same reg id (completedWith t res) t Ht) as Hget.
    split_and!; [done..|]. intros res'. by eapply markCompleted_Completed.
  - intros j eps s id t es Hreach Ht Hs.
    destruct (handleAll_total hash j eps s es Hreach) as [s' Hes]. exists s'.
    pose proof (phaseInvariant_reachable hash _ _ _ Hreach) as Hinv.
    pose proof (handleAll_keeps_completed _ _ _ _ _ Hinv Hes Ht Hs) as Ht'.
    split_and!; [done|done| | |].
    + intros res'. by eapply markCompleted_Completed.
    + intros i records ->. by eapply late_MapResponse.
    + intros p value ->. by eapply late_ReduceResponse.
Qed.
End Results.

Section Timeouts.
Import MR.
#[local] Open Scope nat_scope.

(** C4: a task Dispatched with deadline [d], when that deadline elapses,
    is back to Pending with no worker and no deadline, every other task
    untouched; it is then among the Pending tasks of its kind and
    [markDispatched] accepts it for any worker, and a scheduling pass that
    finds it the lowest Pending task gives it to the free Alive endpoint
    selected. A timer of another deadline changes nothing, and neither does
    the timer when the result was recorded first. *)
Theorem timed_out_task_returns_to_pending reg id t d :
  getTask reg id = Some t → status t = Dispatched → deadline t = Some d →
  getTask (markTimedOut id d reg) id = Some (backToPending t)
  ∧ status (backToPending t) = Pending
  ∧ worker (backToPending t) = None ∧ deadline (backToPending t) = None
  ∧ (∀ id', id' ≠ id → getTask (markTimedOut id d reg) id' = getTask reg id')
  ∧ backToPending t ∈ allPending id.1 (markTimedOut id d reg)
  ∧ (∀ w' d',
       markDispatched id w' d' (markTimedOut id d reg) =
         inl (setTask (markTimedOut id d reg) id (dispatchedTo (backToPending t) w' d')))
  ∧ (∀ s now choice rest w',
       registry s = markTimedOut id d reg → identified reg →
       allPending id.1 (registry s) = backToPending t :: rest →
       freeAlive (registry s) (endpoints s)
         !! (choice `mod` length (freeAlive (registry s) (endpoints s))) = Some w' →
       ∃ s', dispatchNext id.1 now choice s = inl s'
             ∧ getTask (registry s') id = Some (dispatchedTo (backToPending t) w' (now + T)))
  ∧ (∀ d', d' ≠ d → markTimedOut id d' reg = reg)
  ∧ (∀ res, markTimedOut id d (markCompleted id res reg).1 = (markCompleted id res reg).1).
Proof.
  intros Ht Hs Hd.
  assert (Heq : markTimedOut id d reg = setTask reg id (backToPending t)).
  { unfold markTimedOut. rewrite Ht. by rewrite bool_decide_eq_true_2. }
  assert (Hget : getTask (markTimedOut id d reg) id = Some (backToPending t))
    by (rewrite Heq; by eapply getTask_setTask_same).
  split_and!; [done|done|done|done| | | | | |].
  - intros id' Hne. rewrite Heq. by apply getTask_setTask_other.
  - apply allPending_elem. split; [|done].
    unfold getTask in Hget. by eapply list_elem_of_lookup_2.
  - intros w' d'. unfold markDispatched. by rewrite Hget.
  - intros s now choice rest w' Hreg Hid Hpend Hw.
    assert (Hid' : identified (registry s)).
    { rewrite Hreg, Heq. by eapply identified_setTask. }
    eexists. split; [by eapply dispatchNext_assigns|]. simpl.
    destruct id as [k i]. destruct (Hid k i t Ht) as [Hi _]. simpl in *.
    rewrite Hi, Hreg. by eapply getTask_setTask_same.
  - intros d' Hne. unfold markTimedOut. rewrite Ht.
    rewrite bool_decide_eq_false_2; [done|]. intros [_ ?]. congruence.
  - intros res. unfold markCompleted. rewrite Ht, Hs. simpl.
    unfold markTimedOut. erewrite getTask_setTask_same by done.
    by rewrite bool_decide_eq_false_2 by (by intros [? _]).
Qed.
End Timeouts.

Section Partitioning.
Import MR.
#[local] Open Scope nat_scope.
Variable hash : string → nat.

Lemma valuesOf_cons key kv records :
  valuesOf key (kv :: records) =
    if bool_decide (kv.1 = key) then kv.2 :: valuesOf key records
    else valuesOf key records.
Proof. unfold valuesOf. simpl. by destruct (bool_decide (kv.1 = key)). Qed.

Lemma valuesOf_elem key value records :
  value ∈ valuesOf key records ↔ (key, value) ∈ records.
Proof.
  induction records as [|[k v] records IH].
  - unfold valuesOf. simpl. split; intros H; by apply elem_of_nil in H.
  - rewrite valuesOf_cons, elem_of_cons. simpl. case_bool_decide as Hk; simpl in Hk.
    + rewrite elem_of_cons, IH. subst k. split.
      * intros [->|H]; [by left|by right].
      * intros [[= ->]|H]; [by left|by right].
    + rewrite IH. split; [by right|]. by intros [[= ? ?]|H].
Qed.

(** Grouping by key: a key is bound exactly when a record carries it, to
    all its values in order. *)
Lemma groupByKey_lookup records key :
  groupByKey records !! key =
    match valuesOf key records with
    | [] => None
    | vs => Some vs
    end.
Proof.
  induction records as [|[k v] records IH]; [done|].
  rewrite valuesOf_cons. change (groupByKey ((k, v) :: records))
    with (<[k := v :: default [] (groupByKey records !! k)]> (groupByKey records)).
  simpl. case_bool_decide as Hk; simpl in Hk.
  - subst k. rewrite lookup_insert_eq, IH. by destruct (valuesOf key records).
  - by rewrite lookup_insert_ne.
Qed.

Lemma valuesOf_partitionRecords r p key records :
  valuesOf key (partitionRecords hash r p records) =
    if bool_decide (partitionOf hash r key = p) then valuesOf key records else [].
Proof.
  induction records as [|[k v] records IH].
  - by case_bool_decide.
  - unfold partitionRecords in *. simpl. rewrite (valuesOf_cons key (k, v) records). simpl.
    destruct (decide (k = key)) as [->|Hk].
    + rewrite (bool_decide_eq_true_2 (key = key)) by done.
      destruct (bool_decide (partitionOf hash r key = p)) eqn:Hp; [|done].
      rewrite valuesOf_cons. simpl. rewrite bool_decide_eq_true_2 by done. by rewrite IH.
    + rewrite (bool_decide_eq_false_2 (k = key)) by done.
      destruct (bool_decide (partitionOf hash r k = p)); [|done].
      rewrite valuesOf_cons. simpl. by rewrite bool_decide_eq_false_2 by done.
Qed.

(** What [partitionForReduce] computes on its first call. *)
Lemma partitionForReduce_first r a :
  cached a = None →
  partitionForReduce hash r a =
    ({| buffer := []; finals := finals a;
        cached := Some ((λ p, groupByKey (partitionRecords hash r p (buffer a))) <$> seq 0 r) |},
     (λ p, groupByKey (partitionRecords hash r p (buffer a))) <$> seq 0 r).
Proof. intros H. unfold partitionForReduce. by rewrite H. Qed.

(** C3: the first [partitionForReduce(R)], for [R > 0], returns [R]
    partitions; partition [p] binds a key exactly when the key hashes to [p]
    and some buffered record carries it, and binds it to the one sequence of
    all values buffered for that key; so a buffered record (key, value) is
    found in partition [hash(key) mod R], which is below [R], and its key
    in no other partition. The buffer is consumed, and a second call
    returns the same partitions and changes nothing. The ReduceTask
    materialized for partition [p] has that grouped partition as its input. *)
Theorem partition_correctness r a a' parts :
  0 < r → cached a = None → partitionForReduce hash r a = (a', parts) →
  length parts = r
  ∧ (∀ p g key,
       parts !! p = Some g →
       g !! key = if bool_decide (partitionOf hash r key = p ∧ valuesOf key (buffer a) ≠ [])
                  then Some (valuesOf key (buffer a)) else None)
  ∧ (∀ key value,
       (key, value) ∈ buffer a →
       partitionOf hash r key = hash key `mod` r ∧ partitionOf hash r key < r
       ∧ (∃ g, parts !! partitionOf hash r key = Some g
               ∧ g !! key = Some (valuesOf key (buffer a))
               ∧ value ∈ valuesOf key (buffer a))
       ∧ (∀ q g', parts !! q = Some g' → q ≠ partitionOf hash r key → g' !! key = None))
  ∧ (∀ p g, parts !! p = Some g →
            materialize parts !! p =
              Some (mkTask p ReduceTask (PartitionInput g) Pending None None None))
  ∧ buffer a' = []
  ∧ partitionForReduce hash r a' = (a', parts).
Proof.
  intros Hr Hc Hp. rewrite (partitionForReduce_first r a Hc) in Hp.
  injection Hp as <- <-.
  assert (Hlook : ∀ p g key,
            ((λ p, groupByKey (partitionRecords hash r p (buffer a))) <$> seq 0 r) !! p = Some g →
            p < r
            ∧ g !! key = if bool_decide (partitionOf hash r key = p ∧ valuesOf key (buffer a) ≠ [])
                         then Some (valuesOf key (buffer a)) else None).
  { intros p g key Hg. rewrite list_lookup_fmap in Hg.
    destruct (seq 0 r !! p) as [p'|] eqn:Hseq; simpl in Hg; [|done].
    apply lookup_seq in Hseq as [-> Hlt]. injection Hg as <-. split; [done|].
    rewrite groupByKey_lookup, valuesOf_partitionRecords. simpl.
    destruct (bool_decide (partitionOf hash r key = p)) eqn:Hp.
    - apply bool_decide_eq_true in Hp. destruct (valuesOf key (buffer a)) eqn:Hv.
      + by rewrite bool_decide_eq_false_2 by (by intros [_ ?]).
      + by rewrite bool_decide_eq_true_2.
    - apply bool_decide_eq_false in Hp.
      by rewrite bool_decide_eq_false_2 by (by intros [? _]). }
  split_and!.
  - by rewrite length_fmap, length_seq.
  - intros p g key Hg. by apply Hlook.
  - intros key value Hin.
    assert (Hlt : partitionOf hash r key < r) by (apply Nat.mod_upper_bound; lia).
    assert (Hv : value ∈ valuesOf key (buffer a)) by (by apply valuesOf_elem).
    assert (Hne : valuesOf key (buffer a) ≠ []).
    { intros Hnil. rewrite Hnil in Hv. by apply elem_of_nil in Hv. }
    split_and!; [done|done| |].
    + eexists. split.
      * rewrite list_lookup_fmap, lookup_seq_lt by done. reflexivity.
      * split; [|done]. rewrite groupByKey_lookup, valuesOf_partitionRecords.
        rewrite bool_decide_eq_true_2 by done. by destruct (valuesOf key (buffer a)).
    + intros q g' Hg' Hq. destruct (Hlook q g' key Hg') as [_ ->].
      by rewrite bool_decide_eq_false_2 by (intros [? _]; congruence).
  - intros p g Hg. unfold materialize. by rewrite list_lookup_imap, Hg.
  - done.
  - done.
Qed.
End Partitioning.

Section Scenario.
Import MR.
#[local] Open Scope nat_scope.

(** The scenario of the specification: the partitions when the Map phase
    closes, and the final results once Done, the timed-out dispatch and the
    late responses notwithstanding. *)
Example scenario_partitions :
  cached (assembler (stateAfter (untilTimeout ++ take 2 untilDone))) =
    Some [ {[ "a" := ["1"]; "c" := ["1"] ]}; {[ "b" := ["1"; "1"] ]} ].
Proof. vm_compute. reflexivity. Qed.

Example scenario_final_results :
  phase (stateAfter (untilTimeout ++ untilDone)) = Done
  ∧ finalResults (stateAfter (untilTimeout ++ untilDone)) =
      Some {[ 0 := "a=1,c=1"; 1 := "b=2" ]}.
Proof. split; vm_compute; reflexivity. Qed.

(** While the job is not Done there are no final results. *)
Example scenario_no_early_results :
  finalResults (stateAfter (untilTimeout ++ take 6 untilDone)) = None.
Proof. vm_compute. reflexivity. Qed.

Lemma reduce_waits_for_map_witness :
  reachable firstCharHash wordCount twoWorkers (stateAfter (untilTimeout ++ take 3 untilDone))
  ∧ handle firstCharHash (stateAfter (untilTimeout ++ take 3 untilDone)) (Pass 20 0)
    = inl (stateAfter (untilTimeout ++ take 4 untilDone))
  ∧ (status <$> reduceTasks (registry (stateAfter (untilTimeout ++ take 4 untilDone))))
    = [Dispatched; Pending]
  ∧ allCompleted (mapTasks (registry (stateAfter (untilTimeout ++ take 3 untilDone)))) = true
  ∧ phaseInvariant (stateAfter (untilTimeout ++ take 4 untilDone)).
Proof.
  assert (Hreach : reachable firstCharHash wordCount twoWorkers
                     (stateAfter (untilTimeout ++ take 3 untilDone)))
    by (exists (untilTimeout ++ take 3 untilDone); vm_compute; reflexivity).
  assert (He : handle firstCharHash (stateAfter (untilTimeout ++ take 3 untilDone)) (Pass 20 0)
               = inl (stateAfter (untilTimeout ++ take 4 untilDone)))
    by (vm_compute; reflexivity).
  destruct (reduce_waits_for_map firstCharHash _ _ _ (Pass 20 0) Hreach)
    as (s' & He' & Hord & _ & Hinv & _).
  rewrite He in He'. injection He' as <-.
  split_and!; [exact Hreach|exact He|vm_compute; reflexivity| |exact Hinv].
  refine (proj1 (Hord 0 (mkTask 0 ReduceTask
            (PartitionInput {[ "a" := ["1"]; "c" := ["1"] ]})
            Dispatched (Some "worker-1") (Some 30) None) _ _)).
  - vm_compute. reflexivity.
  - discriminate.
Defined.

Lemma completed_result_is_final_witness :
  handle firstCharHash (stateAfter (untilTimeout ++ untilDone))
         (MapResponse 1 [("late", "1")])
    = inl (stateAfter (untilTimeout ++ untilDone))
  ∧ finalResults (stateAfter (untilTimeout ++ untilDone))
    = Some {[ 0 := "a=1,c=1"; 1 := "b=2" ]}.
Proof.
  split; [|vm_compute; reflexivity].
  assert (Hreach : reachable firstCharHash wordCount twoWorkers
                     (stateAfter (untilTimeout ++ take 2 untilDone)))
    by (exists (untilTimeout ++ take 2 untilDone); vm_compute; reflexivity).
  assert (Hes : handleAll firstCharHash (stateAfter (untilTimeout ++ take 2 untilDone))
                  (drop 2 untilDone)
                = inl (stateAfter (untilTimeout ++ untilDone)))
    by (vm_compute; reflexivity).
  destruct (proj2 (completed_result_is_final firstCharHash) wordCount twoWorkers
              (stateAfter (untilTimeout ++ take 2 untilDone)) (MapTask, 1)
              (mkTask 1 MapTask (FileRef "b c") Completed None None
                      (Some (MapOutput [("b", "1"); ("c", "1")])))
              (drop 2 untilDone) Hreach)
    as (s' & Hes' & _ & _ & Hlate & _).
  - vm_compute. reflexivity.
  - reflexivity.
  - rewrite Hes in Hes'. injection Hes' as <-.
    exact (Hlate 1 [("late", "1")] eq_refl).
Defined.

Lemma partition_correctness_witness :
  (partitionForReduce firstCharHash 2 wordBuffer).2
    = [ {[ "a" := ["1"]; "c" := ["1"] ]}; {[ "b" := ["1"; "1"] ]} ]
  ∧ ∃ g, (partitionForReduce firstCharHash 2 wordBuffer).2 !! partitionOf firstCharHash 2 "b"
         = Some g
         ∧ g !! "b" = Some (valuesOf "b" (buffer wordBuffer))
         ∧ "1" ∈ valuesOf "b" (buffer wordBuffer).
Proof.
  split; [vm_compute; reflexivity|].
  assert (H0 : 0 < 2) by lia.
  destruct (partition_correctness firstCharHash 2 wordBuffer
              (partitionForReduce firstCharHash 2 wordBuffer).1
              (partitionForReduce firstCharHash 2 wordBuffer).2 H0 eq_refl eq_refl)
    as (_ & _ & Hrec & _).
  refine (proj1 (proj2 (proj2 (Hrec "b" "1" _)))).
  apply elem_of_cons. right. apply elem_of_cons. by left.
Defined.

Lemma timed_out_task_returns_to_pending_witness :
  getTask (markTimedOut (MapTask, 1) 10 (registry (stateAfter (take 3 untilTimeout))))
          (MapTask, 1)
    = Some (mkTask 1 MapTask (FileRef "b c") Pending None None None)
  ∧ ∃ s', dispatchNext MapTask 11 0 (stateAfter untilTimeout) = inl s'
          ∧ getTask (registry s') (MapTask, 1)
            = Some (mkTask 1 MapTask (FileRef "b c") Dispatched (Some "worker-1") (Some 21) None).
Proof.
  assert (Hreach : reachable firstCharHash wordCount twoWorkers
                     (stateAfter (take 3 untilTimeout)))
    by (exists (take 3 untilTimeout); vm_compute; reflexivity).
  destruct (timed_out_task_returns_to_pending
              (registry (stateAfter (take 3 untilTimeout))) (MapTask, 1)
              (mkTask 1 MapTask (FileRef "b c") Dispatched (Some "worker-2") (Some 10) None)
              10 eq_refl eq_refl eq_refl)
    as (Hget & _ & _ & _ & _ & _ & _ & Hpass & _).
  split; [exact Hget|].
  refine (Hpass (stateAfter untilTimeout) 11 0 [] "worker-1" eq_refl _ eq_refl eq_refl).
  by eapply identified_reachable.
Defined.
End Scenario.
